(** * Trapezoidal rule: the integrator of [trapezoidal_rule.cpp]

    The development embeds the routine [trapezoidal_rule] and the
    self-test [test] of the source file and settles the properties the
    specification states about them.

    The routine is written once, over an interface [DoubleOps] of the
    arithmetic it uses on [double]; two instances are studied:

    - [IEEE]: binary64 floating point (Rocq's primitive floats), the
      arithmetic the compiled program runs on;
    - [Exact]: the field of real numbers, the reading the specification
      calls "exactly over real arithmetic".

    [int] is a 32-bit signed integer; an overflowing signed operation has
    undefined behaviour in C++, which the model reports as [None]. *)

From Stdlib Require Import ZArith List Lia Bool.
From Stdlib Require Import Reals Lra.
From Stdlib Require Import Floats.
From Stdlib Require String Ascii.
From Equations Require Import Equations.
Import ListNotations.

Set Warnings "-inexact-float".
Local Open Scope Z_scope.

(** ** The type [int] *)

Module CInt.

Definition INT_MAX : Z := 2147483647.
Definition INT_MIN : Z := -2147483648.

(** A mathematical result is an [int] when it is representable; otherwise
    the operation that produced it overflowed. *)
Definition checked (z : Z) : option Z :=
  if (INT_MIN <=? z) && (z <=? INT_MAX) then Some z else None.

Definition sub (x y : Z) : option Z := checked (x - y).
Definition add (x y : Z) : option Z := checked (x + y).

(** What a two's complement machine computes where the language leaves
    the overflow undefined. *)
Definition wrap (z : Z) : Z := (z - INT_MIN) mod 2 ^ 32 + INT_MIN.

End CInt.

(** ** The arithmetic of [double] *)

Class DoubleOps (D : Type) : Type := {
  d_zero : D;                 (* the literal 0.0 *)
  d_add : D -> D -> D;
  d_sub : D -> D -> D;
  d_mul : D -> D -> D;
  d_div : D -> D -> D;
  of_int : Z -> D             (* the implicit conversion int -> double *)
}.

Declare Scope dbl_scope.
Delimit Scope dbl_scope with D.
Infix "+" := d_add : dbl_scope.
Infix "-" := d_sub : dbl_scope.
Infix "*" := d_mul : dbl_scope.
Infix "/" := d_div : dbl_scope.

(** Conversion of an [int] to binary64; exact for every 32-bit value. *)
Definition float_of_int (z : Z) : float :=
  if z <? 0 then PrimFloat.opp (of_uint63 (Uint63.of_Z (- z)))
  else of_uint63 (Uint63.of_Z z).

#[export] Instance IEEE : DoubleOps float := {
  d_zero := 0%float;
  d_add := PrimFloat.add;
  d_sub := PrimFloat.sub;
  d_mul := PrimFloat.mul;
  d_div := PrimFloat.div;
  of_int := float_of_int
}.

#[export] Instance Exact : DoubleOps R := {
  d_zero := 0%R;
  d_add := Rplus;
  d_sub := Rminus;
  d_mul := Rmult;
  d_div := Rdiv;
  of_int := IZR
}.

(** ** The routine *)

Definition inspect {A : Type} (x : A) : {y : A | x = y} := exist _ x eq_refl.
Arguments inspect : simpl never.

Section Routine.

Context {D : Type} {ops : DoubleOps D}.

(** A call through the function pointer [func]. The log lists the
    arguments of the calls made so far, oldest first. *)
Definition call (func : D -> D) (x : D) (log : list D) : D * list D :=
  (func x, log ++ [x]).

(** [for (int i = 1; i <= n - 1; i++) value += func(a + (i * h));]
    entered with the current [i], [value] and call log. *)
Equations? loop (func : D -> D) (a h : D) (n : Z)
    (i : Z) (value : D) (log : list D) : option (D * list D)
    by wf (Z.to_nat (n - i)) lt :=
  loop func a h n i value log with inspect (CInt.sub n 1) := {
    | exist _ None _ => None
    | exist _ (Some bound) Hb with Z_le_dec i bound := {
      | right _ => Some (value, log)
      | left Hle with inspect (CInt.add i 1) := {
        | exist _ None _ => None
        | exist _ (Some i') Hi =>
            loop func a h n i'
              (value + fst (call func (a + of_int i * h) log))%D
              (snd (call func (a + of_int i * h)%D log)) } } }.
Proof.
  unfold CInt.sub, CInt.add, CInt.checked in Hb, Hi.
  destruct (_ && _) in Hb; [|discriminate].
  destruct (_ && _) in Hi; [|discriminate].
  injection Hb as <-. injection Hi as <-. lia.
Qed.

(** [double trapezoidal_rule(func, a, b, n)], with [func] a pointer to a
    function from [double] to [double], [a], [b] of type [double] and [n]
    of type [int].
    The result pairs the returned value with the log of the calls to
    [func]. The two endpoint calls of the last statement are logged left
    to right (C++ leaves their relative order open). *)
Definition trapezoidal_rule (func : D -> D) (a b : D) (n : Z)
  : option (D * list D) :=
  let value := d_zero in
  let h := ((b - a) / of_int n)%D in
  match loop func a h n 1 value [] with
  | None => None
  | Some (value, log) =>
      let (fa, log) := call func a log in
      let (fb, log) := call func b log in
      Some (((fa + of_int 2 * value + fb) * h / of_int 2)%D, log)
  end.

(** The value returned, and the arguments [func] was invoked on. *)
Definition returned (r : option (D * list D)) : option D := option_map fst r.
Definition invoked (r : option (D * list D)) : option (list D) := option_map snd r.

(** *** The specification's reading of the algorithm *)

(** [Zseq s k] is [s; s+1; ...; s+k-1]. *)
Fixpoint Zseq (s : Z) (k : nat) : list Z :=
  match k with
  | O => []
  | S k' => s :: Zseq (s + 1) k'
  end.

(** The interior indices [1 .. n-1]. *)
Definition interior (n : Z) : list Z := Zseq 1 (Z.to_nat (n - 1)).

(** The sample point [a + i*h]. *)
Definition point (a h : D) (i : Z) : D := (a + of_int i * h)%D.

(** The step width and the sum [S] of the interior samples, accumulated
    from [0.0] in increasing [i]. *)
Definition step_width (a b : D) (n : Z) : D := ((b - a) / of_int n)%D.

Definition interior_sum (func : D -> D) (a h : D) (n : Z) : D :=
  fold_left (fun s i => (s + func (point a h i))%D) (interior n) d_zero.

(** [function(a) + 2*S + function(b)], the bracket of step 3. *)
Definition bracket (func : D -> D) (a b : D) (n : Z) : D :=
  (func a + of_int 2 * interior_sum func a (step_width a b n) n + func b)%D.

Definition spec_value (func : D -> D) (a b : D) (n : Z) : D :=
  (bracket func a b n * step_width a b n / of_int 2)%D.

End Routine.

(** ** The self-test of the source *)

Section SelfTest.

(** [exp] of <cmath>; it is not part of the repository. *)
Variable exp : float -> float.

Definition func1 (x : float) : float := (float_of_int 1 / x)%float.
Definition func2 (x : float) : float := exp (- x)%float.
Definition func3 (x : float) : float :=
  (float_of_int 1 / (float_of_int 1 + x * x))%float.

(** [assert(abs(r - expected) < 1e-6)] on the value returned by a call. *)
Definition assert_close (r : option (float * list float)) (expected : float) : bool :=
  match r with
  | Some (v, _) => (abs (v - expected) <? 1e-6)%float
  | None => false
  end.

Definition test1 : bool :=
  assert_close (trapezoidal_rule func1 1.0%float 2.0%float 10) 0.693771%float.
Definition test2 : bool :=
  assert_close (trapezoidal_rule func2 0.0%float 1.0%float 10) 0.632647%float.
Definition test3 : bool :=
  assert_close (trapezoidal_rule func3 0.0%float 1.0%float 20) 0.785294%float.

(** [test()] reaches its last line when the three assertions hold. *)
Definition test : bool := test1 && test2 && test3.

End SelfTest.

(** ** The entry point of the source *)

Module Driver.

Import String Ascii.

(** How the program ends: aborted by a failed assertion, or exited with a
    status after it wrote [output] to [cout]. *)
Inductive outcome : Type :=
| Aborted
| Exited (status : Z) (output : string).

(** ["All Test Cleared!"] followed by [endl]. *)
Definition message : string :=
  ("All Test Cleared!" ++ String "010" EmptyString)%string.

(** [void test()] as a whole: the three assertions, then the message on
    [cout]. The result is the stream after the call, [None] when an
    assertion failed. *)
Definition test_run (exp : float -> float) (cout : string) : option string :=
  if test exp then Some (cout ++ message)%string else None.

(** [int main()]: [test(); return 0;] *)
Definition main (exp : float -> float) : outcome :=
  match test_run exp EmptyString with
  | Some cout => Exited 0 cout
  | None => Aborted
  end.

End Driver.

(** ** Notions used to state and prove the properties *)

(** The arguments the routine passes to [func]. *)
Definition sample_points {D : Type} {ops : DoubleOps D} (a b : D) (n : Z) : list D :=
  map (point a (step_width a b n)) (interior n) ++ [a; b].

(** *** Real arithmetic *)

(** The sum of [g] over a list of indices. *)
Definition Rsum (g : Z -> R) (l : list Z) : R :=
  fold_right (fun i s => (g i + s)%R) 0%R l.

(** *** Binary64 values *)

(** The classes of a binary64 value, read on its specification. *)
Definition SF_is_nan (x : spec_float) : bool :=
  match x with S754_nan => true | _ => false end.
Definition SF_is_infinity (x : spec_float) : bool :=
  match x with S754_infinity _ => true | _ => false end.
Definition SF_is_zero (x : spec_float) : bool :=
  match x with S754_zero _ => true | _ => false end.

(** The real number a binary64 value stands for (0 for NaN and infinities). *)
Definition SF2R (x : spec_float) : R :=
  match x with
  | S754_finite s m e => ((if s then -1 else 1) * (IZR (Zpos m) * powerRZ 2 e))%R
  | _ => 0%R
  end.

Definition F2R (x : float) : R := SF2R (Prim2SF x).

(** The real number [v] stands for is at a distance below tn/td of cn/cd. *)
Definition close_in_R (v : float) (cn cd tn td : Z) : bool :=
  match Prim2SF v with
  | S754_finite s m e =>
      let W := 2 ^ (- e) in
      let mz := if s then Zneg m else Zpos m in
      (e <=? 0) && (Z.abs (mz * cd - cn * W) * td <? tn * (W * cd))
  | _ => false
  end.

(** *** Enclosures of the exponential

    e^(-y) lies between 1 - y and 1/(1 + y); squaring [J] times carries an
    enclosure of e^(-n/2^(k+J)) to one of e^(-n/2^k). The bounds are
    integers at scale 2^P, rounded outwards. *)

(** The quotient rounded up, for a positive divisor. *)
Definition cdiv (a b : Z) : Z := (a + b - 1) / b.

(** The same for the divisor 2^p, by a shift. *)
Definition cdiv_pow2 (a p : Z) : Z := Z.shiftr (a + (2 ^ p - 1)) p.

Fixpoint square_down (j : nat) (P lo : Z) : Z :=
  match j with
  | O => lo
  | S j' => square_down j' P (Z.shiftr (lo * lo) P)
  end.

Fixpoint square_up (j : nat) (P hi : Z) : Z :=
  match j with
  | O => hi
  | S j' => square_up j' P (cdiv_pow2 (hi * hi) P)
  end.

Definition exp_neg_bounds (J : nat) (P : Z) (n k : Z) : Z * Z :=
  let S := 2 ^ P in
  let q := 2 ^ (k + Z.of_nat J) in
  (square_down J P (S - cdiv_pow2 (S * n) (k + Z.of_nat J)),
   square_up J P (cdiv (S * q) (q + n))).

(** *** Binary64 values in a bracket *)

(** The number of mantissa [m] and exponent [e]. *)
Definition float_of_mantissa (e m : Z) : float :=
  match m with
  | Zpos p => SF2Prim (S754_finite false p e)
  | _ => nan
  end.

(** The normal numbers of exponent [e0] within [a/T, b/T]. *)
Definition binade_candidates (a b T e0 : Z) : list float :=
  let W := 2 ^ (- e0) in
  let lo := Z.max (cdiv (a * W) T) (2 ^ 52) in
  let hi := Z.min ((b * W) / T) (2 ^ 53 - 1) in
  map (float_of_mantissa e0) (Zseq lo (Z.to_nat (hi - lo + 1))).

(** The binary64 values of [1/4, 2) within [a/T, b/T]. *)
Definition bracket_candidates (a b T : Z) : list float :=
  flat_map (binade_candidates a b T) [-54; -53; -52].

(** *** Accuracy of the library exponential *)

(** Squarings and fraction bits used to enclose a value of the exponential. *)
Definition exp_J : nat := 58.
Definition exp_P : Z := 120.

(** [exp_f] is within 2^-53 of the exponential at [x]. *)
Definition exp_accurate (exp_f : float -> float) (x : float) : Prop :=
  (Rabs (F2R (exp_f x) - exp (F2R x)) <= / IZR (2 ^ 53))%R.

(** Integer bounds [(L, U)] with L/2^P <= e^x <= U/2^P, for a zero or a
    negative [x]. *)
Definition exp_enclosure (x : float) : option (Z * Z) :=
  match Prim2SF x with
  | S754_zero _ => Some (2 ^ exp_P, 2 ^ exp_P)
  | S754_finite true m e =>
      if (e <=? 0) && (Zpos m <=? 2 ^ (- e + Z.of_nat exp_J))
      then Some (exp_neg_bounds exp_J exp_P (Zpos m) (- e))
      else None
  | _ => None
  end.

(** The binary64 values within 2^-53 of a number enclosed by L/2^P and
    U/2^P, and those within 2^-53 of e^x. *)
Definition candidates_in (L U : Z) : option (list float) :=
  let S := 2 ^ exp_P in
  let a := L * 2 ^ 53 - S in
  let b := U * 2 ^ 53 + S in
  let T := S * 2 ^ 53 in
  if (T <=? 4 * a) && (b <? 2 * T) then Some (bracket_candidates a b T) else None.

Definition exp_candidates (x : float) : option (list float) :=
  match exp_enclosure x with
  | Some (L, U) => candidates_in L U
  | None => None
  end.

(** [c] is within 2^-53 of every number between L/2^P and U/2^P, and of
    every point of the enclosure of e^x. *)
Definition exp_close_in (L U : Z) (c : float) : bool :=
  match Prim2SF c with
  | S754_finite false mc ec =>
      let S := 2 ^ exp_P in
      let W := 2 ^ (- ec) in
      (ec <=? 0)
      && ((Zpos mc * 2 ^ 53 - W) * S <=? L * 2 ^ 53 * W)
      && (U * 2 ^ 53 * W <=? (Zpos mc * 2 ^ 53 + W) * S)
  | _ => false
  end.

Definition exp_close (x c : float) : bool :=
  match exp_enclosure x with
  | Some (L, U) => exp_close_in L U c
  | None => false
  end.

(** An exponential for the arguments of the self-test: the first binary64
    value within 2^-53 of e^x, when the enclosure finds one. *)
Definition exp_nearest (x : float) : option float :=
  match exp_enclosure x with
  | Some (L, U) =>
      match candidates_in L U with
      | Some cs => find (exp_close_in L U) cs
      | None => None
      end
  | None => None
  end.

Definition exp_model (x : float) : float :=
  match exp_nearest x with
  | Some c => c
  | None => nan
  end.

(** The candidates for e^x, none when the enclosure is not available. *)
Definition exp_candidate_list (x : float) : list float :=
  match exp_candidates x with
  | Some cs => cs
  | None => []
  end.

Definition has_candidates (x : float) : bool :=
  match exp_candidates x with
  | Some _ => true
  | None => false
  end.

(** *** Every value the second assertion can see *)

(** A list without its repetitions. *)
Definition add_new (v : float) (l : list float) : list float :=
  if existsb (PrimFloat.Leibniz.eqb v) l then l else v :: l.

Definition distinct (l : list float) : list float := fold_right add_new [] l.

(** The sums the loop can reach from one of [accs] when the k-th sample is
    one of the k-th candidates. *)
Fixpoint sums (cands : list (list float)) (accs : list float) : list float :=
  match cands with
  | [] => accs
  | c :: rest =>
      sums rest (distinct (flat_map (fun acc => map (fun v => (acc + v)%float) c) accs))
  end.

(** The values the routine can return when each sample of [func] is one
    of its candidates. *)
Definition possible_values
  (cands : list (list float)) (ca cb : list float) (h : float) : list float :=
  flat_map
    (fun S => flat_map
                (fun ea => map (fun eb => ((ea + 2 * S + eb) * h / 2)%float) cb)
                ca)
    (sums cands [0%float]).

(** The values [trapezoidal_rule(func2, 0.0, 1.0, 10)] can return when
    [exp] is within 2^-53 of the exponential at each sample. *)
Definition test2_values : list float :=
  let h := step_width 0%float 1%float 10 in
  possible_values
    (map (fun i => exp_candidate_list (- point 0%float h i)%float) (interior 10))
    (exp_candidate_list (- 0)%float)
    (exp_candidate_list (- 1)%float)
    h.

(** * Properties *)

(** ** The loop *)

Section LoopFacts.

Context {D : Type} {ops : DoubleOps D}.
Variables (func : D -> D) (a h : D) (n : Z).

Lemma checked_in_range (z : Z) :
  CInt.INT_MIN <= z <= CInt.INT_MAX -> CInt.checked z = Some z.
Proof.
  intros [Hlo Hhi]. unfold CInt.checked.
  apply Z.leb_le in Hlo. apply Z.leb_le in Hhi.
  now rewrite Hlo, Hhi.
Qed.

Lemma checked_Some (z r : Z) :
  CInt.checked z = Some r -> r = z /\ CInt.INT_MIN <= z <= CInt.INT_MAX.
Proof.
  unfold CInt.checked.
  destruct (CInt.INT_MIN <=? z) eqn:Hlo; destruct (z <=? CInt.INT_MAX) eqn:Hhi;
    simpl; intros Heq; try discriminate.
  injection Heq as <-. apply Z.leb_le in Hlo. apply Z.leb_le in Hhi. lia.
Qed.

Lemma checked_out_of_range (z : Z) :
  z < CInt.INT_MIN \/ CInt.INT_MAX < z -> CInt.checked z = None.
Proof.
  intros Hz. unfold CInt.checked.
  destruct (CInt.INT_MIN <=? z) eqn:Hlo; destruct (z <=? CInt.INT_MAX) eqn:Hhi;
    simpl; try reflexivity.
  apply Z.leb_le in Hlo. apply Z.leb_le in Hhi. lia.
Qed.

(** The guard [i <= n - 1] fails: the loop is left. *)
Lemma loop_exit (i : Z) (value : D) (log : list D) :
  CInt.INT_MIN < n <= CInt.INT_MAX -> n <= i ->
  loop func a h n i value log = Some (value, log).
Proof.
  intros Hn Hi. rewrite loop_equation_1.
  destruct (inspect (CInt.sub n 1)) as [[bound|] Hb]; simpl.
  - destruct (checked_Some _ _ Hb) as [-> _].
    destruct (Z_le_dec i (n - 1)); [lia | reflexivity].
  - unfold CInt.sub in Hb. rewrite checked_in_range in Hb; [discriminate | lia].
Qed.

(** The guard holds: one pass through the body, then [i++]. *)
Lemma loop_step (i : Z) (value : D) (log : list D) :
  CInt.INT_MIN < n <= CInt.INT_MAX -> CInt.INT_MIN <= i < n ->
  loop func a h n i value log =
  loop func a h n (i + 1) (value + func (point a h i))%D (log ++ [point a h i]).
Proof.
  intros Hn Hi. rewrite loop_equation_1.
  destruct (inspect (CInt.sub n 1)) as [[bound|] Hb]; simpl.
  - destruct (checked_Some _ _ Hb) as [-> _].
    destruct (Z_le_dec i (n - 1)); [| lia].
    unfold loop_unfold_clause_1_clause_2.
    destruct (inspect (CInt.add i 1)) as [[i'|] Hi']; simpl.
    + destruct (checked_Some _ _ Hi') as [-> _]. reflexivity.
    + unfold CInt.add in Hi'. rewrite checked_in_range in Hi'; [discriminate | lia].
  - unfold CInt.sub in Hb. rewrite checked_in_range in Hb; [discriminate | lia].
Qed.

(** [n - 1] overflows in the guard. *)
Lemma loop_overflow (i : Z) (value : D) (log : list D) :
  n - 1 < CInt.INT_MIN \/ CInt.INT_MAX < n - 1 ->
  loop func a h n i value log = None.
Proof.
  intros Hn. rewrite loop_equation_1.
  destruct (inspect (CInt.sub n 1)) as [[bound|] Hb]; simpl.
  - destruct (checked_Some _ _ Hb) as [_ Hr]. lia.
  - reflexivity.
Qed.

End LoopFacts.

(** ** The routine against the specification's algorithm *)

Section RoutineFacts.

Context {D : Type} {ops : DoubleOps D}.
Variables (func : D -> D).

Lemma Zseq_length (s : Z) (k : nat) : length (Zseq s k) = k.
Proof. revert s; induction k; intros s; simpl; [reflexivity | now rewrite IHk]. Qed.

Lemma Zseq_In (k : nat) : forall s i, In i (Zseq s k) <-> s <= i < s + Z.of_nat k.
Proof.
  induction k as [|k IH]; intros s i.
  - simpl. lia.
  - cbn [Zseq In]. rewrite IH. lia.
Qed.

Lemma Zseq_snoc (k : nat) : forall s, Zseq s (S k) = Zseq s k ++ [s + Z.of_nat k].
Proof.
  induction k as [|k IH]; intros s.
  - simpl. now rewrite Z.add_0_r.
  - change (Zseq s (S (S k))) with (s :: Zseq (s + 1) (S k)).
    rewrite IH. simpl. do 3 f_equal. lia.
Qed.

(** [interior n] lists exactly the indices [1 <= i <= n - 1]. *)
Lemma interior_spec (n i : Z) : In i (interior n) <-> 1 <= i <= n - 1.
Proof. unfold interior. rewrite Zseq_In. lia. Qed.

Lemma interior_length (n : Z) : length (interior n) = Z.to_nat (n - 1).
Proof. apply Zseq_length. Qed.

Lemma interior_empty (n : Z) : n <= 1 -> interior n = [].
Proof.
  intros Hn. unfold interior.
  replace (Z.to_nat (n - 1)) with O by lia. reflexivity.
Qed.

(** Entered at [i], the loop runs through the remaining indices
    [i .. n-1] in increasing order, and then stops. *)
Lemma loop_run (a h : D) (n : Z) (k : nat) :
  CInt.INT_MIN < n <= CInt.INT_MAX ->
  forall i value log,
    CInt.INT_MIN <= i -> k = Z.to_nat (n - i) ->
    loop func a h n i value log =
    Some (fold_left (fun s j => (s + func (point a h j))%D) (Zseq i k) value,
          log ++ map (point a h) (Zseq i k)).
Proof.
  intros Hn. induction k as [|k IH]; intros i value log Hi Hk.
  - rewrite loop_exit by (try assumption; lia).
    simpl. now rewrite app_nil_r.
  - rewrite loop_step by (try assumption; lia).
    rewrite IH by lia. cbn [Zseq fold_left map].
    now rewrite <- app_assoc.
Qed.

(** For every [n] whose [n - 1] does not overflow, the routine returns the
    value of the specification's steps 1 to 3 and has called [func] on the
    interior points in increasing order, then on the two endpoints. *)
Lemma trapezoidal_rule_run (a b : D) (n : Z) :
  CInt.INT_MIN < n <= CInt.INT_MAX ->
  trapezoidal_rule func a b n =
  Some (spec_value func a b n,
        map (point a (step_width a b n)) (interior n) ++ [a; b]).
Proof.
  intros Hn. unfold trapezoidal_rule.
  rewrite (loop_run a _ n (Z.to_nat (n - 1))) by (try assumption; unfold CInt.INT_MIN; lia).
  cbn [call app]. rewrite <- app_assoc. reflexivity.
Qed.

(** On a machine that wraps around, [INT_MIN - 1] is [INT_MAX], a bound
    that no [int] exceeds: the guard of the loop would never fail. *)
Lemma guard_wraps_at_INT_MIN :
  CInt.wrap (CInt.INT_MIN - 1) = CInt.INT_MAX
  /\ forall i, CInt.checked i = Some i -> i <= CInt.wrap (CInt.INT_MIN - 1).
Proof.
  split; [reflexivity |].
  intros i Hi. apply checked_Some in Hi as [_ Hi].
  change (CInt.wrap (CInt.INT_MIN - 1)) with CInt.INT_MAX. lia.
Qed.

(** At [n = INT_MIN] the guard's [n - 1] overflows. *)
Lemma trapezoidal_rule_INT_MIN (a b : D) :
  trapezoidal_rule func a b CInt.INT_MIN = None.
Proof.
  unfold trapezoidal_rule. rewrite loop_overflow; [reflexivity |].
  left. unfold CInt.INT_MIN. lia.
Qed.

End RoutineFacts.

(** ** Real arithmetic *)

Section RealArithmetic.

Local Open Scope R_scope.

Lemma fold_left_Rsum (g : Z -> R) (l : list Z) :
  forall v, fold_left (fun s i => s + g i) l v = v + Rsum g l.
Proof.
  induction l as [|i l IH]; intros v; simpl.
  - ring.
  - rewrite IH. ring.
Qed.

Lemma Rsum_app (g : Z -> R) (l1 l2 : list Z) :
  Rsum g (l1 ++ l2) = Rsum g l1 + Rsum g l2.
Proof. induction l1 as [|i l1 IH]; simpl; [ring | rewrite IH; ring]. Qed.

Lemma Rsum_rev (g : Z -> R) (l : list Z) : Rsum g (rev l) = Rsum g l.
Proof.
  induction l as [|i l IH]; simpl; [reflexivity |].
  rewrite Rsum_app, IH. simpl. ring.
Qed.

Lemma Rsum_map (g : Z -> R) (k : Z -> Z) (l : list Z) :
  Rsum g (map k l) = Rsum (fun i => g (k i)) l.
Proof. induction l as [|i l IH]; simpl; [reflexivity | now rewrite IH]. Qed.

Lemma Rsum_ext (g1 g2 : Z -> R) (l : list Z) :
  (forall i, In i l -> g1 i = g2 i) -> Rsum g1 l = Rsum g2 l.
Proof.
  induction l as [|i l IH]; intros Hg; simpl; [reflexivity |].
  rewrite (Hg i) by (left; reflexivity).
  rewrite IH by (intros j Hj; apply Hg; right; exact Hj). reflexivity.
Qed.

Lemma Rsum_linear (alpha beta : R) (g1 g2 : Z -> R) (l : list Z) :
  Rsum (fun i => alpha * g1 i + beta * g2 i) l
  = alpha * Rsum g1 l + beta * Rsum g2 l.
Proof. induction l as [|i l IH]; simpl; [ring | rewrite IH; ring]. Qed.

(** The sum of an affine function of the index over [s .. s+k-1]. *)
Lemma Rsum_affine (p q : R) (k : nat) :
  forall s, Rsum (fun i => p + q * IZR i) (Zseq s k)
            = INR k * p + q * (INR k * IZR s + INR k * (INR k - 1) / 2).
Proof.
  induction k as [|k IH]; intros s.
  - simpl. lra.
  - cbn [Zseq Rsum fold_right]. fold (Rsum (fun i => p + q * IZR i) (Zseq (s + 1) k)).
    rewrite IH, S_INR, plus_IZR. lra.
Qed.

(** Reading [s .. s+k-1] downwards from [c]. *)
Lemma Zseq_mirror (c : Z) (k : nat) :
  forall s, map (fun i => (c - i)%Z) (Zseq s k)
            = rev (Zseq (c - s - Z.of_nat k + 1) k).
Proof.
  induction k as [|k IH]; intros s.
  - reflexivity.
  - rewrite (Zseq_snoc k (c - s - Z.of_nat (S k) + 1)), rev_app_distr.
    cbn [Zseq map rev app]. rewrite IH.
    f_equal; [lia | do 2 f_equal; lia].
Qed.

Lemma interior_mirror (n : Z) :
  map (fun i => (n - i)%Z) (interior n) = rev (interior n).
Proof.
  unfold interior. rewrite Zseq_mirror.
  destruct (Z_le_dec n 1) as [Hn | Hn].
  - replace (Z.to_nat (n - 1)) with O by lia. reflexivity.
  - do 2 f_equal. lia.
Qed.

(** The value of the specification's steps over the reals. *)
Lemma spec_value_real (f : R -> R) (a b : R) (n : Z) :
  spec_value f a b n
  = (f a + 2 * Rsum (fun i => f (a + IZR i * ((b - a) / IZR n))) (interior n) + f b)
    * ((b - a) / IZR n) / 2.
Proof.
  unfold spec_value, bracket, interior_sum, step_width, point.
  cbn [d_add d_sub d_mul d_div d_zero of_int Exact].
  rewrite fold_left_Rsum. now rewrite Rplus_0_l.
Qed.

Lemma returned_real (f : R -> R) (a b : R) (n : Z) :
  (CInt.INT_MIN < n <= CInt.INT_MAX)%Z ->
  returned (trapezoidal_rule f a b n)
  = Some ((f a + 2 * Rsum (fun i => f (a + IZR i * ((b - a) / IZR n))) (interior n) + f b)
          * ((b - a) / IZR n) / 2).
Proof.
  intros Hn. rewrite trapezoidal_rule_run by exact Hn.
  unfold returned. cbn [option_map fst]. now rewrite spec_value_real.
Qed.

End RealArithmetic.

(** ** Binary64 arithmetic *)

Section Binary64.

Lemma SFcompare_refl (s : bool) (m : positive) (e : Z) :
  SFcompare (S754_finite s m e) (S754_finite s m e) = Some Eq.
Proof.
  simpl. rewrite Z.compare_refl.
  change (Pos.compare_cont Eq m m) with (Pos.compare m m).
  rewrite Pos.compare_refl. now destruct s.
Qed.

Lemma is_nan_Prim2SF (x : float) : is_nan x = SF_is_nan (Prim2SF x).
Proof.
  unfold is_nan. rewrite eqb_spec. unfold SFeqb.
  destruct (Prim2SF x) as [s | s | | s m e].
  - reflexivity.
  - now destruct s.
  - reflexivity.
  - now rewrite SFcompare_refl.
Qed.

Lemma is_infinity_Prim2SF (x : float) : is_infinity x = SF_is_infinity (Prim2SF x).
Proof.
  unfold is_infinity. rewrite eqb_spec, abs_spec.
  change (Prim2SF infinity) with (S754_infinity false).
  now destruct (Prim2SF x) as [s | s | | s m e].
Qed.

Lemma is_zero_Prim2SF (x : float) : is_zero x = SF_is_zero (Prim2SF x).
Proof.
  unfold is_zero. rewrite eqb_spec.
  change (Prim2SF zero) with (S754_zero false).
  destruct (Prim2SF x) as [s | s | | s m e]; try reflexivity; now destruct s.
Qed.

Lemma is_finite_Prim2SF (x : float) :
  is_finite x = negb (SF_is_nan (Prim2SF x) || SF_is_infinity (Prim2SF x)).
Proof. unfold is_finite. now rewrite is_nan_Prim2SF, is_infinity_Prim2SF. Qed.

(** Dividing by [+0.0] never gives a finite value. *)
Lemma div_zero_not_finite (x : float) : is_finite (x / 0)%float = false.
Proof.
  rewrite is_finite_Prim2SF, div_spec.
  change (Prim2SF 0%float) with (S754_zero false).
  now destruct (Prim2SF x) as [s | s | | s m e].
Qed.

(** A product with a non-finite factor is not finite. *)
Lemma mul_not_finite (x y : float) :
  is_finite y = false -> is_finite (x * y)%float = false.
Proof.
  rewrite !is_finite_Prim2SF, mul_spec.
  destruct (Prim2SF x) as [sx | sx | | sx mx ex];
    destruct (Prim2SF y) as [sy | sy | | sy my ey]; simpl; congruence.
Qed.

Lemma mul_not_finite_l (x y : float) :
  is_finite x = false -> is_finite (x * y)%float = false.
Proof.
  rewrite !is_finite_Prim2SF, mul_spec.
  destruct (Prim2SF x) as [sx | sx | | sx mx ex];
    destruct (Prim2SF y) as [sy | sy | | sy my ey]; simpl; congruence.
Qed.

(** A sum with a non-finite term is not finite. *)
Lemma add_not_finite_l (x y : float) :
  is_finite x = false -> is_finite (x + y)%float = false.
Proof.
  rewrite !is_finite_Prim2SF, add_spec.
  destruct (Prim2SF x) as [sx | sx | | sx mx ex];
    destruct (Prim2SF y) as [sy | sy | | sy my ey]; simpl; try congruence;
    destruct sx, sy; simpl; congruence.
Qed.

Lemma add_not_finite_r (x y : float) :
  is_finite y = false -> is_finite (x + y)%float = false.
Proof.
  rewrite !is_finite_Prim2SF, add_spec.
  destruct (Prim2SF x) as [sx | sx | | sx mx ex];
    destruct (Prim2SF y) as [sy | sy | | sy my ey]; simpl; try congruence;
    destruct sx, sy; simpl; congruence.
Qed.

(** Halving keeps a non-finite value non-finite. *)
Lemma div_two_not_finite (x : float) :
  is_finite x = false -> is_finite (x / 2)%float = false.
Proof.
  rewrite !is_finite_Prim2SF, div_spec.
  change (Prim2SF 2%float) with (S754_finite false 4503599627370496 (-51)).
  destruct (Prim2SF x) as [sx | sx | | sx mx ex]; simpl; congruence.
Qed.

End Binary64.

Section Binary64Exact.

Lemma digits2_pos_iter_xO (p k : positive) :
  digits2_pos (Pos.iter xO p k) = (digits2_pos p + k)%positive.
Proof.
  induction k as [|k IH] using Pos.peano_ind.
  - simpl. now rewrite Pos.add_1_r.
  - rewrite Pos.iter_succ. simpl. now rewrite IH, Pos.add_succ_r.
Qed.

Lemma digits2_pos_bound (p : positive) :
  forall k, 0 <= k -> Zpos p < 2 ^ k -> Zpos (digits2_pos p) <= k.
Proof.
  induction p as [p IH | p IH |]; intros k Hk Hp.
  - assert (k <> 0) by (intros ->; simpl in Hp; lia).
    replace k with (Z.succ (k - 1)) in Hp by lia.
    rewrite Z.pow_succ_r in Hp by lia.
    specialize (IH (k - 1)). simpl. lia.
  - assert (k <> 0) by (intros ->; simpl in Hp; lia).
    replace k with (Z.succ (k - 1)) in Hp by lia.
    rewrite Z.pow_succ_r in Hp by lia.
    specialize (IH (k - 1)). simpl. lia.
  - assert (k <> 0) by (intros ->; simpl in Hp; lia).
    simpl. lia.
Qed.

(** A mantissa already in canonical position is not shifted. *)
Lemma shr_fexp_canonical (m : positive) (e : Z) :
  canonical_mantissa prec emax m e = true ->
  shr_fexp prec emax (Zpos m) e loc_Exact
  = ({| shr_m := Zpos m; shr_r := false; shr_s := false |}, e).
Proof.
  unfold canonical_mantissa, shr_fexp. intros Hc. apply Z.eqb_eq in Hc.
  simpl Zdigits2. rewrite Hc, Z.sub_diag. reflexivity.
Qed.

(** Rounding a representable value is exact. *)
Lemma binary_round_aux_canonical (s : bool) (m : positive) (e : Z) :
  bounded prec emax m e = true ->
  binary_round_aux prec emax s (Zpos m) e loc_Exact = S754_finite s m e.
Proof.
  unfold bounded. intros Hb. apply andb_prop in Hb as [Hc He].
  unfold binary_round_aux. rewrite (shr_fexp_canonical m e Hc).
  cbn [shr_m loc_of_shr_record round_nearest_even].
  rewrite (shr_fexp_canonical m e Hc). cbn [shr_m]. now rewrite He.
Qed.

(** The conversion of a positive [int] is a positive finite number. *)
Lemma float_of_int_positive (n : Z) :
  1 <= n <= CInt.INT_MAX ->
  exists m e, Prim2SF (float_of_int n) = S754_finite false m e.
Proof.
  intros Hn. unfold float_of_int.
  destruct (Z.ltb_spec n 0) as [Hneg | _]; [lia |].
  rewrite of_uint63_spec, Uint63.of_Z_spec.
  rewrite Z.mod_small
    by (unfold CInt.INT_MAX in Hn; change Uint63.wB with 9223372036854775808; lia).
  destruct n as [| p | p]; try lia.
  unfold binary_normalize, binary_round.
  assert (Hd : Zpos (digits2_pos p) <= 31).
  { apply digits2_pos_bound; [lia |]. unfold CInt.INT_MAX in Hn.
    change (2 ^ 31) with 2147483648. lia. }
  set (d := digits2_pos p) in *.
  replace (fexp prec emax (Zpos d + 0)) with (Zpos d - 53)
    by (unfold fexp, SpecFloat.emin, prec, emax; lia).
  unfold shl_align.
  destruct (Zpos d - 53 - 0) as [| q | k] eqn:Ek; try lia.
  exists (Pos.iter xO p k), (Zpos d - 53).
  apply binary_round_aux_canonical.
  unfold bounded, canonical_mantissa.
  rewrite digits2_pos_iter_xO. fold d.
  apply andb_true_intro; split.
  - apply Z.eqb_eq. unfold fexp, SpecFloat.emin, prec, emax. lia.
  - apply Z.leb_le. unfold prec, emax. lia.
Qed.

(** A finite value minus itself is [+0.0]. *)
Lemma sub_self_finite (a : float) :
  is_finite a = true -> (a - a)%float = 0%float.
Proof.
  intros Ha. apply Prim2SF_inj. rewrite sub_spec.
  rewrite is_finite_Prim2SF in Ha.
  change (Prim2SF 0%float) with (S754_zero false).
  destruct (Prim2SF a) as [s | s | | s m e]; try discriminate.
  - now destruct s.
  - unfold SF64sub, SFsub. now rewrite Z.sub_diag.
Qed.

(** [+0.0] divided by a positive [int] is [+0.0]. *)
Lemma zero_div_int (n : Z) :
  1 <= n <= CInt.INT_MAX -> (0 / float_of_int n)%float = 0%float.
Proof.
  intros Hn. apply Prim2SF_inj. rewrite div_spec.
  destruct (float_of_int_positive n Hn) as (m & e & ->). reflexivity.
Qed.

(** The step width of a zero-width interval with a finite bound. *)
Lemma step_width_zero (a : float) (n : Z) :
  is_finite a = true -> 1 <= n <= CInt.INT_MAX -> step_width a a n = 0%float.
Proof.
  intros Ha Hn. unfold step_width. cbn [d_sub d_div of_int IEEE].
  rewrite (sub_self_finite a Ha). now apply zero_div_int.
Qed.

(** The last statement of the routine when [h] is [+0.0]. *)
Lemma times_zero_finite (t : float) :
  is_finite t = true -> is_zero (t * 0 / 2)%float = true.
Proof.
  rewrite is_finite_Prim2SF, is_zero_Prim2SF, div_spec, mul_spec.
  change (Prim2SF 2%float) with (S754_finite false 4503599627370496 (-51)).
  change (Prim2SF 0%float) with (S754_zero false).
  destruct (Prim2SF t) as [s | s | | s m e]; simpl; congruence.
Qed.

Lemma times_zero_not_finite (t : float) :
  is_finite t = false -> is_nan (t * 0 / 2)%float = true.
Proof.
  rewrite is_finite_Prim2SF, is_nan_Prim2SF, div_spec, mul_spec.
  change (Prim2SF 2%float) with (S754_finite false 4503599627370496 (-51)).
  change (Prim2SF 0%float) with (S754_zero false).
  destruct (Prim2SF t) as [s | s | | s m e]; simpl; congruence.
Qed.

End Binary64Exact.

(** ** The self-test *)

Lemma cdiv_ge (a b : Z) : 0 < b -> a <= b * cdiv a b.
Proof.
  intros Hb. unfold cdiv.
  pose proof (Z.div_mod (a + b - 1) b ltac:(lia)) as Hdm.
  pose proof (Z.mod_pos_bound (a + b - 1) b Hb) as Hmod. lia.
Qed.

Lemma exp_double (t : R) : exp (t * 2) = (exp t * exp t)%R.
Proof. replace (t * 2)%R with (t + t)%R by ring. apply exp_plus. Qed.

(** The shift computes the same quotient. *)
Lemma cdiv_pow2_eq (a p : Z) : 0 <= p -> cdiv_pow2 a p = cdiv a (2 ^ p).
Proof.
  intros Hp. unfold cdiv_pow2, cdiv. rewrite Z.shiftr_div_pow2 by exact Hp.
  f_equal. lia.
Qed.

(** Squaring a lower bound of e^t, rounded down, bounds e^(2t) from below. *)
Lemma square_down_sound (P : Z) (j : nat) :
  0 <= P ->
  forall (lo : Z) (t : R),
    0 <= lo -> (IZR lo / IZR (2 ^ P) <= exp t)%R ->
    (IZR (square_down j P lo) / IZR (2 ^ P) <= exp (t * 2 ^ j))%R.
Proof.
  intros HP.
  assert (HS : 0 < 2 ^ P) by (apply Z.pow_pos_nonneg; lia).
  assert (HSr : (0 < IZR (2 ^ P))%R) by (apply IZR_lt; exact HS).
  induction j as [|j IH]; intros lo t Hlo Hle.
  - simpl. now rewrite Rmult_1_r.
  - cbn [square_down pow]. rewrite Z.shiftr_div_pow2 by exact HP.
    set (S := 2 ^ P) in *.
    replace (t * (2 * 2 ^ j))%R with ((t * 2) * 2 ^ j)%R by ring.
    apply IH.
    + apply Z.div_pos; nia.
    + rewrite exp_double.
      assert (H0 : (0 <= IZR lo / IZR S)%R).
      { apply Rmult_le_pos; [apply IZR_le; exact Hlo | apply Rlt_le, Rinv_0_lt_compat, HSr]. }
      apply Rle_trans with ((IZR lo / IZR S) * (IZR lo / IZR S))%R.
      * pose proof (Z.mul_div_le (lo * lo) S HS) as Hz.
        apply IZR_le in Hz. rewrite !mult_IZR in Hz.
        apply Rmult_le_reg_r with (IZR S); [exact HSr |].
        unfold Rdiv. field_simplify; [| lra | lra].
        unfold Rdiv. apply Rmult_le_reg_r with (IZR S); [exact HSr |].
        field_simplify; [| lra]. lra.
      * apply Rmult_le_compat; assumption.
Qed.

(** Squaring an upper bound of e^t, rounded up, bounds e^(2t) from above. *)
Lemma square_up_sound (P : Z) (j : nat) :
  0 <= P ->
  forall (hi : Z) (t : R),
    (exp t <= IZR hi / IZR (2 ^ P))%R ->
    (exp (t * 2 ^ j) <= IZR (square_up j P hi) / IZR (2 ^ P))%R.
Proof.
  intros HP.
  assert (HS : 0 < 2 ^ P) by (apply Z.pow_pos_nonneg; lia).
  assert (HSr : (0 < IZR (2 ^ P))%R) by (apply IZR_lt; exact HS).
  induction j as [|j IH]; intros hi t Hle.
  - simpl. now rewrite Rmult_1_r.
  - cbn [square_up pow]. rewrite cdiv_pow2_eq by exact HP.
    set (S := 2 ^ P) in *.
    replace (t * (2 * 2 ^ j))%R with ((t * 2) * 2 ^ j)%R by ring.
    apply IH. rewrite exp_double.
    pose proof (exp_pos t) as Hpos.
    apply Rle_trans with ((IZR hi / IZR S) * (IZR hi / IZR S))%R.
    + apply Rmult_le_compat; lra.
    + pose proof (cdiv_ge (hi * hi) S HS) as Hz.
      apply IZR_le in Hz. rewrite !mult_IZR in Hz.
      apply Rmult_le_reg_r with (IZR S); [exact HSr |].
      unfold Rdiv. field_simplify; [| lra | lra].
      unfold Rdiv. apply Rmult_le_reg_r with (IZR S); [exact HSr |].
      field_simplify; [| lra]. lra.
Qed.

(** The integer bounds enclose e^(-n/2^k). *)
Lemma exp_neg_bounds_sound (J : nat) (P n k : Z) :
  0 <= P -> 0 <= k -> 0 <= n <= 2 ^ (k + Z.of_nat J) ->
  (IZR (fst (exp_neg_bounds J P n k)) / IZR (2 ^ P)
   <= exp (- (IZR n / IZR (2 ^ k)))
   <= IZR (snd (exp_neg_bounds J P n k)) / IZR (2 ^ P))%R.
Proof.
  intros HP Hk Hn. unfold exp_neg_bounds. cbn [fst snd].
  rewrite cdiv_pow2_eq by lia.
  set (S := 2 ^ P). set (q := 2 ^ (k + Z.of_nat J)).
  assert (HS : 0 < S) by (apply Z.pow_pos_nonneg; lia).
  assert (Hq : 0 < q) by (apply Z.pow_pos_nonneg; lia).
  assert (HSr : (0 < IZR S)%R) by (apply IZR_lt; exact HS).
  assert (Hqr : (0 < IZR q)%R) by (apply IZR_lt; exact Hq).
  assert (Hnr : (0 <= IZR n)%R) by (apply IZR_le; lia).
  assert (Hk2 : (0 < IZR (2 ^ k))%R) by (apply IZR_lt, Z.pow_pos_nonneg; lia).
  assert (Harg : (- (IZR n / IZR (2 ^ k)) = - (IZR n / IZR q) * 2 ^ J)%R).
  { unfold q. rewrite Z.pow_add_r by lia. rewrite mult_IZR.
    rewrite <- (pow_IZR 2 J). field. split; [apply pow_nonzero; lra | lra]. }
  rewrite Harg. split.
  - apply square_down_sound; [exact HP | |].
    + pose proof (cdiv_ge (S * n) q Hq) as Hc.
      assert (cdiv (S * n) q < S + 1); [| lia].
      unfold cdiv. apply Z.div_lt_upper_bound; [exact Hq |]. fold q in Hn. nia.
    + fold S. apply Rle_trans with (1 + - (IZR n / IZR q))%R; [| apply exp_ineq1_le].
      pose proof (cdiv_ge (S * n) q Hq) as Hc.
      apply IZR_le in Hc. rewrite !mult_IZR in Hc. rewrite minus_IZR.
      apply Rmult_le_reg_r with (IZR S * IZR q)%R; [apply Rmult_lt_0_compat; assumption |].
      field_simplify; [| lra | lra]. lra.
  - apply square_up_sound; [exact HP |]. fold S.
    pose proof (exp_ineq1_le (IZR n / IZR q)) as Hexp.
    assert (Hy : (0 <= IZR n / IZR q)%R).
    { apply Rmult_le_pos; [exact Hnr | apply Rlt_le, Rinv_0_lt_compat, Hqr]. }
    assert (Hinv : (exp (- (IZR n / IZR q)) <= / (1 + IZR n / IZR q))%R).
    { rewrite exp_Ropp. apply Rinv_le_contravar; lra. }
    apply Rle_trans with (1 := Hinv).
    pose proof (cdiv_ge (S * q) (q + n) ltac:(lia)) as Hc.
    apply IZR_le in Hc. rewrite !mult_IZR, plus_IZR in Hc.
    apply Rmult_le_reg_r with ((1 + IZR n / IZR q) * IZR S * IZR q)%R.
    { apply Rmult_lt_0_compat; [apply Rmult_lt_0_compat|]; lra. }
    field_simplify; [| lra | split; [lra|]].
    + lra.
    + intros Hz. assert (0 < IZR q + IZR n)%R by lra. lra.
Qed.

(** A mantissa of [d] binary digits lies in [2^(d-1), 2^d). *)
Lemma digits2_pos_spec (m : positive) :
  2 ^ (Zpos (digits2_pos m) - 1) <= Zpos m < 2 ^ Zpos (digits2_pos m).
Proof.
  induction m as [m IH | m IH |]; cbn [digits2_pos].
  - rewrite Pos2Z.inj_succ, Z.pow_succ_r by lia.
    replace (Z.succ (Zpos (digits2_pos m)) - 1) with (Z.succ (Zpos (digits2_pos m) - 1)) by lia.
    rewrite Z.pow_succ_r by lia. lia.
  - rewrite Pos2Z.inj_succ, Z.pow_succ_r by lia.
    replace (Z.succ (Zpos (digits2_pos m)) - 1) with (Z.succ (Zpos (digits2_pos m) - 1)) by lia.
    rewrite Z.pow_succ_r by lia. lia.
  - simpl. lia.
Qed.

Lemma pow2_pos (e : Z) : (0 < powerRZ 2 e)%R.
Proof. apply powerRZ_lt. lra. Qed.

Lemma pow2_nonneg_exp (z : Z) : 0 <= z -> powerRZ 2 z = IZR (2 ^ z).
Proof.
  intros Hz. rewrite <- (Z2Nat.id z Hz) at 1 2.
  rewrite <- pow_powerRZ. now rewrite pow_IZR.
Qed.

Lemma pow2_neg_exp (z : Z) : z <= 0 -> powerRZ 2 z = (/ IZR (2 ^ (- z)))%R.
Proof.
  intros Hz. replace z with (- - z) at 1 by lia.
  rewrite powerRZ_neg', pow2_nonneg_exp by lia. reflexivity.
Qed.

(** Powers of two grow with the exponent. *)
Lemma pow2_mono (x y : Z) : x <= y -> (powerRZ 2 x <= powerRZ 2 y)%R.
Proof.
  intros Hxy. replace y with (x + (y - x)) by lia.
  rewrite powerRZ_add by lra.
  rewrite (pow2_nonneg_exp (y - x)) by lia.
  assert (1 <= IZR (2 ^ (y - x)))%R.
  { apply IZR_le. pose proof (Z.pow_pos_nonneg 2 (y - x)). lia. }
  pose proof (pow2_pos x). nra.
Qed.

(** A valid finite number is normal, with a 53-bit mantissa, or lies in
    the lowest binade. *)
Lemma bounded_cases (m : positive) (e : Z) :
  bounded prec emax m e = true ->
  (2 ^ 52 <= Zpos m < 2 ^ 53 /\ -1074 <= e) \/ (Zpos m < 2 ^ 52 /\ e = -1074).
Proof.
  unfold bounded, canonical_mantissa, fexp, SpecFloat.emin, prec, emax.
  intros Hb. apply andb_prop in Hb as [Hc _]. apply Z.eqb_eq in Hc.
  pose proof (digits2_pos_spec m) as Hd.
  set (d := Zpos (digits2_pos m)) in *.
  assert (Hcase : d = 53 \/ d < 53) by lia.
  destruct Hcase as [Hd53 | Hd53].
  - left. rewrite Hd53 in Hd. simpl in Hd. change (2 ^ 52) with 4503599627370496.
    change (2 ^ 53) with 9007199254740992. simpl. lia.
  - right. split; [| lia].
    apply Z.lt_le_trans with (2 ^ d); [lia |].
    apply Z.pow_le_mono_r; lia.
Qed.

(** The binary64 values within a bracket [a/T, b/T] inside [1/4, 2). *)
Lemma bracket_candidates_sound (y : float) (a b T : Z) :
  0 < T -> T <= 4 * a -> b < 2 * T ->
  (IZR a / IZR T <= F2R y <= IZR b / IZR T)%R ->
  In y (bracket_candidates a b T).
Proof.
  intros HT Ha Hb [Hlo Hhi].
  assert (HTr : (0 < IZR T)%R) by (apply IZR_lt; exact HT).
  assert (Hquarter : (/ 4 <= IZR a / IZR T)%R).
  { apply IZR_le in Ha. rewrite mult_IZR in Ha.
    apply Rmult_le_reg_r with (IZR T); [exact HTr |].
    unfold Rdiv. rewrite Rmult_assoc, Rinv_l by lra. lra. }
  assert (Htwo : (IZR b / IZR T < 2)%R).
  { apply IZR_lt in Hb. rewrite mult_IZR in Hb.
    apply Rmult_lt_reg_r with (IZR T); [exact HTr |].
    unfold Rdiv. rewrite Rmult_assoc, Rinv_l by lra. lra. }
  pose proof (Prim2SF_valid y) as Hvalid.
  pose proof (SF2Prim_Prim2SF y) as Hy.
  unfold F2R in Hlo, Hhi.
  destruct (Prim2SF y) as [s | s | | s m e]; cbn [SF2R] in Hlo, Hhi; try lra.
  cbn [valid_binary] in Hvalid.
  pose proof (pow2_pos e) as Hpe.
  assert (Hm : (0 < IZR (Zpos m))%R) by (apply IZR_lt; lia).
  destruct s.
  { assert (0 < IZR (Zpos m) * powerRZ 2 e)%R by (apply Rmult_lt_0_compat; assumption). lra. }
  rewrite Rmult_1_l in Hlo, Hhi.
  destruct (bounded_cases m e Hvalid) as [[Hnorm He] | [Hsub He]].
  2:{ (* lowest binade: far below 1/4 *)
    subst e. apply IZR_lt in Hsub.
    assert (powerRZ 2 (-1074) * IZR (2 ^ 52) <= / 4)%R.
    { rewrite <- (pow2_nonneg_exp 52), <- powerRZ_add by (lia || lra).
      replace (/ 4)%R with (powerRZ 2 (-2)) by (simpl; lra).
      apply pow2_mono. lia. }
    nra. }
  destruct Hnorm as [Hm52 Hm53].
  assert (Hv1 : (powerRZ 2 (52 + e) <= IZR (Zpos m) * powerRZ 2 e)%R).
  { rewrite powerRZ_add by lra. rewrite (pow2_nonneg_exp 52) by lia.
    apply IZR_le in Hm52. nra. }
  assert (Hv2 : (IZR (Zpos m) * powerRZ 2 e < powerRZ 2 (53 + e))%R).
  { rewrite powerRZ_add by lra. rewrite (pow2_nonneg_exp 53) by lia.
    apply IZR_lt in Hm53. nra. }
  assert (He1 : -54 <= e).
  { destruct (Z_le_dec (-54) e) as [|Hn]; [assumption |].
    assert (powerRZ 2 (53 + e) <= powerRZ 2 (-2))%R by (apply pow2_mono; lia).
    replace (powerRZ 2 (-2)) with (/ 4)%R in * by (simpl; lra). lra. }
  assert (He2 : e <= -52).
  { destruct (Z_le_dec e (-52)) as [|Hn]; [assumption |].
    assert (powerRZ 2 1 <= powerRZ 2 (52 + e))%R by (apply pow2_mono; lia).
    replace (powerRZ 2 1) with 2%R in * by (simpl; lra). lra. }
  (* the mantissa lies between the bounds of the bracket *)
  assert (Hbounds : cdiv (a * 2 ^ (- e)) T <= Zpos m <= (b * 2 ^ (- e)) / T).
  { rewrite (pow2_neg_exp e) in Hlo, Hhi by lia.
    assert (HW : 0 < 2 ^ (- e)) by (apply Z.pow_pos_nonneg; lia).
    assert (HWr : (0 < IZR (2 ^ (- e)))%R) by (apply IZR_lt; exact HW).
    assert (Hz1 : a * 2 ^ (- e) <= Zpos m * T).
    { apply le_IZR. rewrite !mult_IZR.
      apply Rmult_le_reg_r with (/ IZR T * / IZR (2 ^ (- e)))%R.
      - apply Rmult_lt_0_compat; apply Rinv_0_lt_compat; assumption.
      - field_simplify; [| lra | lra]. exact Hlo. }
    assert (Hz2 : Zpos m * T <= b * 2 ^ (- e)).
    { apply le_IZR. rewrite !mult_IZR.
      apply Rmult_le_reg_r with (/ IZR T * / IZR (2 ^ (- e)))%R.
      - apply Rmult_lt_0_compat; apply Rinv_0_lt_compat; assumption.
      - field_simplify; [| lra | lra]. exact Hhi. }
    split.
    - unfold cdiv.
      assert ((a * 2 ^ (- e) + T - 1) / T < Zpos m + 1); [| lia].
      apply Z.div_lt_upper_bound; [exact HT | nia].
    - apply Z.div_le_lower_bound; [exact HT | nia]. }
  unfold bracket_candidates. apply in_flat_map. exists e. split.
  - simpl. lia.
  - unfold binade_candidates. rewrite <- Hy.
    change (SF2Prim (S754_finite false m e)) with (float_of_mantissa e (Zpos m)).
    apply in_map. apply Zseq_In. change (2 ^ 53) with 9007199254740992 in *.
    change (2 ^ 52) with 4503599627370496 in *. lia.
Qed.

Lemma Rabs_le_bounds (a b : R) : (Rabs a <= b -> - b <= a <= b)%R.
Proof. intros H. unfold Rabs in H. destruct (Rcase_abs a); lra. Qed.

(** The enclosure computed for [x] contains e^x. *)
Lemma exp_enclosure_sound (x : float) (L U : Z) :
  exp_enclosure x = Some (L, U) ->
  (IZR L / IZR (2 ^ exp_P) <= exp (F2R x) <= IZR U / IZR (2 ^ exp_P))%R.
Proof.
  unfold exp_enclosure, F2R.
  destruct (Prim2SF x) as [s | s | | s m e]; try discriminate.
  - intros Heq. injection Heq as <- <-. cbn [SF2R]. rewrite exp_0.
    assert (0 < IZR (2 ^ exp_P))%R by (apply IZR_lt; reflexivity).
    unfold Rdiv. rewrite Rinv_r by lra. lra.
  - destruct s; try discriminate.
    destruct ((e <=? 0) && (Zpos m <=? 2 ^ (- e + Z.of_nat exp_J))) eqn:Hc;
      [| discriminate].
    apply andb_prop in Hc as [He Hm].
    apply Z.leb_le in He. apply Z.leb_le in Hm.
    intros Heq.
    pose proof (f_equal (fun o => match o with Some p => p | None => (0, 0) end) Heq)
      as Hb. cbv beta iota in Hb.
    pose proof (exp_neg_bounds_sound exp_J exp_P (Zpos m) (- e)) as Hs.
    rewrite Hb in Hs. cbn [fst snd] in Hs. cbn [SF2R].
    rewrite (pow2_neg_exp e He).
    replace (-1 * (IZR (Zpos m) * / IZR (2 ^ (- e))))%R
      with (- (IZR (Zpos m) / IZR (2 ^ (- e))))%R by (unfold Rdiv; ring).
    apply Hs; [unfold exp_P | |]; lia.
Qed.

(** An accurate [exp_f] returns one of the candidates. *)
Lemma exp_candidates_sound (exp_f : float -> float) (x : float) (cs : list float) :
  exp_candidates x = Some cs -> exp_accurate exp_f x -> In (exp_f x) cs.
Proof.
  unfold exp_candidates, candidates_in, exp_accurate.
  destruct (exp_enclosure x) as [[L U] |] eqn:Henc; try discriminate.
  cbv zeta.
  set (S := 2 ^ exp_P). set (B := 2 ^ 53). set (T := S * B).
  destruct ((T <=? 4 * (L * B - S)) && (U * B + S <? 2 * T)) eqn:Hc;
    try discriminate.
  apply andb_prop in Hc as [Ha Hb]. apply Z.leb_le in Ha. apply Z.ltb_lt in Hb.
  intros Heq Hacc. injection Heq as <-.
  apply exp_enclosure_sound in Henc. fold S in Henc.
  assert (HS : (0 < IZR S)%R) by (apply IZR_lt; reflexivity).
  assert (HB : (0 < IZR B)%R) by (apply IZR_lt; reflexivity).
  apply bracket_candidates_sound; try assumption; [reflexivity |].
  apply Rabs_le_bounds in Hacc.
  unfold T. clearbody S B. rewrite plus_IZR, minus_IZR, !mult_IZR.
  replace ((IZR L * IZR B - IZR S) / (IZR S * IZR B))%R
    with (IZR L / IZR S - / IZR B)%R by (field; lra).
  replace ((IZR U * IZR B + IZR S) / (IZR S * IZR B))%R
    with (IZR U / IZR S + / IZR B)%R by (field; lra).
  lra.
Qed.

(** The integer test of [exp_close] bounds the real distance. *)
Lemma exp_close_sound (x c : float) :
  exp_close x c = true ->
  (Rabs (F2R c - exp (F2R x)) <= / IZR (2 ^ 53))%R.
Proof.
  unfold exp_close, exp_close_in.
  destruct (exp_enclosure x) as [[L U] |] eqn:Henc; try discriminate.
  unfold F2R at 1.
  destruct (Prim2SF c) as [s | s | | s mc ec]; try discriminate.
  destruct s; try discriminate. cbv zeta.
  set (S := 2 ^ exp_P). set (B := 2 ^ 53). set (W := 2 ^ (- ec)).
  intros Hc. apply andb_prop in Hc as [Hc Hup]. apply andb_prop in Hc as [He Hlow].
  apply Z.leb_le in He. apply Z.leb_le in Hlow. apply Z.leb_le in Hup.
  apply exp_enclosure_sound in Henc. fold S in Henc.
  assert (HS : (0 < IZR S)%R) by (apply IZR_lt; reflexivity).
  assert (HB : (0 < IZR B)%R) by (apply IZR_lt; reflexivity).
  assert (HW : (0 < IZR W)%R) by (apply IZR_lt, Z.pow_pos_nonneg; lia).
  cbn [SF2R]. rewrite (pow2_neg_exp ec He). fold W.
  clearbody S B W.
  apply IZR_le in Hlow. apply IZR_le in Hup.
  repeat first [rewrite mult_IZR in Hlow | rewrite minus_IZR in Hlow].
  repeat first [rewrite mult_IZR in Hup | rewrite plus_IZR in Hup].
  apply Rabs_le. rewrite Rmult_1_l.
  set (v := exp (F2R x)) in *. set (mz := IZR (Zpos mc)) in *.
  split.
  - apply Rle_trans with (mz * / IZR W - IZR U / IZR S)%R; [| lra].
    apply Rmult_le_reg_r with (IZR B * IZR W * IZR S)%R.
    { repeat apply Rmult_lt_0_compat; assumption. }
    field_simplify; [| lra | lra]. lra.
  - apply Rle_trans with (mz * / IZR W - IZR L / IZR S)%R; [lra |].
    apply Rmult_le_reg_r with (IZR B * IZR W * IZR S)%R.
    { repeat apply Rmult_lt_0_compat; assumption. }
    field_simplify; [| lra | lra]. lra.
Qed.

Lemma add_new_In (v x : float) (l : list float) :
  In v (x :: l) -> In v (add_new x l).
Proof.
  unfold add_new. destruct (existsb (PrimFloat.Leibniz.eqb x) l) eqn:Hex.
  - intros [<- | Hv]; [| exact Hv].
    apply existsb_exists in Hex as (y & Hy & Heq).
    apply FloatAxioms.Leibniz.eqb_spec in Heq. now subst y.
  - intros Hv. exact Hv.
Qed.

Lemma distinct_In (v : float) (l : list float) : In v l -> In v (distinct l).
Proof.
  induction l as [|x l IH]; intros Hv; [exact Hv |].
  cbn [distinct fold_right]. apply add_new_In.
  destruct Hv as [<- | Hv]; [left; reflexivity | right; apply IH, Hv].
Qed.

(** The sum accumulated by the loop is one of [sums]. *)
Lemma sums_sound (f : Z -> float) (l : list Z) :
  forall (cs : list (list float)) (accs : list float) (acc : float),
    In acc accs ->
    Forall2 (fun i c => In (f i) c) l cs ->
    In (fold_left (fun s i => s + f i)%float l acc) (sums cs accs).
Proof.
  induction l as [|i l IH]; intros cs accs acc Hacc Hall; inversion Hall; subst.
  - exact Hacc.
  - cbn [fold_left sums]. apply IH; [| assumption].
    apply distinct_In, in_flat_map. exists acc. split; [exact Hacc |].
    now apply in_map.
Qed.

Lemma Forall2_map_r (A B : Type) (P : A -> B -> Prop) (g : A -> B) (l : list A) :
  (forall x, In x l -> P x (g x)) -> Forall2 P l (map g l).
Proof.
  induction l as [|x l IH]; intros Hl; simpl; constructor.
  - apply Hl. left. reflexivity.
  - apply IH. intros y Hy. apply Hl. right. exact Hy.
Qed.

(** The value of the specification's steps is one of [possible_values]. *)
Lemma spec_value_possible
  (f : float -> float) (a b : float) (n : Z) (g : Z -> list float) (ca cb : list float) :
  (forall i, In i (interior n) -> In (f (point a (step_width a b n) i)) (g i)) ->
  In (f a) ca -> In (f b) cb ->
  In (spec_value f a b n)
     (possible_values (map g (interior n)) ca cb (step_width a b n)).
Proof.
  intros Hint Ha Hb. unfold possible_values, spec_value, bracket.
  apply in_flat_map. exists (interior_sum f a (step_width a b n) n). split.
  - unfold interior_sum.
    apply (sums_sound (fun i => f (point a (step_width a b n) i)));
      [left; reflexivity |].
    apply Forall2_map_r. exact Hint.
  - apply in_flat_map. exists (f a). split; [exact Ha |].
    apply in_map_iff. exists (f b). split; [reflexivity | exact Hb].
Qed.

Lemma exp_candidate_list_sound (exp_f : float -> float) (x : float) :
  has_candidates x = true -> exp_accurate exp_f x -> In (exp_f x) (exp_candidate_list x).
Proof.
  unfold has_candidates, exp_candidate_list.
  destruct (exp_candidates x) as [cs |] eqn:Hcs; [| discriminate].
  intros _ Hacc. now apply (exp_candidates_sound exp_f x cs).
Qed.

Lemma sample_points_In {D : Type} {ops : DoubleOps D} (a b : D) (n : Z) (x : D) :
  In x (sample_points a b n) <->
  x = a \/ x = b \/ exists i, In i (interior n) /\ x = point a (step_width a b n) i.
Proof.
  unfold sample_points. rewrite in_app_iff, in_map_iff. simpl. split.
  - intros [[i [Hx Hi]] | [Hx | [Hx | []]]]; eauto.
  - intros [Hx | [Hx | [i [Hi Hx]]]]; eauto.
Qed.

(** The integer test of [close_in_R] bounds the real distance. *)
Lemma close_in_R_sound (v : float) (cn cd tn td : Z) :
  0 < cd -> 0 < td -> close_in_R v cn cd tn td = true ->
  (Rabs (F2R v - IZR cn / IZR cd) < IZR tn / IZR td)%R.
Proof.
  intros Hcd Htd. unfold close_in_R, F2R.
  destruct (Prim2SF v) as [s | s | | s m e]; try discriminate.
  cbv zeta. set (W := 2 ^ (- e)). set (mz := if s then Zneg m else Zpos m).
  intros Hc. apply andb_prop in Hc as [He Hlt].
  apply Z.leb_le in He. apply Z.ltb_lt in Hlt.
  assert (HW : 0 < W) by (apply Z.pow_pos_nonneg; lia).
  assert (HWr : (0 < IZR W)%R) by (apply IZR_lt; exact HW).
  assert (Hcdr : (0 < IZR cd)%R) by (apply IZR_lt; exact Hcd).
  assert (Htdr : (0 < IZR td)%R) by (apply IZR_lt; exact Htd).
  assert (Hv : SF2R (S754_finite s m e) = (IZR mz / IZR W)%R).
  { cbn [SF2R]. rewrite (pow2_neg_exp e He). fold W. unfold mz.
    destruct s; [change (Zneg m) with (- Zpos m); rewrite opp_IZR |];
      unfold Rdiv; ring. }
  rewrite Hv.
  replace (IZR mz / IZR W - IZR cn / IZR cd)%R
    with (IZR (mz * cd - cn * W) * / (IZR W * IZR cd))%R
    by (rewrite minus_IZR, !mult_IZR; field; lra).
  assert (Hden : (0 < / (IZR W * IZR cd))%R)
    by (apply Rinv_0_lt_compat, Rmult_lt_0_compat; assumption).
  rewrite Rabs_mult, Rabs_Zabs, (Rabs_pos_eq (/ _)) by lra.
  apply IZR_lt in Hlt. rewrite !mult_IZR in Hlt.
  apply Rmult_lt_reg_r with (IZR W * IZR cd * IZR td)%R.
  { repeat apply Rmult_lt_0_compat; assumption. }
  clearbody W mz. field_simplify; [| lra | lra]. lra.
Qed.

(** The candidate sets exist at the eleven samples, and every value they
    allow passes the second assertion and is within 1e-6 of 0.632647. *)
Lemma test2_samples_have_candidates :
  forallb (fun x => has_candidates (- x)%float) (sample_points 0%float 1%float 10) = true.
Proof. vm_compute. reflexivity. Qed.

Lemma test2_values_close :
  forallb (fun v => (abs (v - 0.632647) <? 1e-6)%float
                    && close_in_R v 632647 1000000 1 1000000) test2_values = true.
Proof. vm_compute. reflexivity. Qed.

(** With an accurate [exp], the second scenario returns one of [test2_values]. *)
Lemma test2_value_possible (exp_f : float -> float) :
  (forall x, In x (sample_points 0%float 1%float 10) -> exp_accurate exp_f (- x)%float) ->
  In (spec_value (func2 exp_f) 0%float 1%float 10) test2_values.
Proof.
  intros Hacc.
  pose proof test2_samples_have_candidates as Hcand.
  rewrite forallb_forall in Hcand.
  assert (Hin : forall x, In x (sample_points 0%float 1%float 10) ->
                          In (func2 exp_f x) (exp_candidate_list (- x)%float)).
  { intros x Hx. unfold func2. apply exp_candidate_list_sound; auto. }
  unfold test2_values.
  apply (spec_value_possible (func2 exp_f) 0%float 1%float 10
           (fun i => exp_candidate_list (- point 0 (step_width 0 1 10) i)%float)).
  - intros i Hi. apply Hin. apply sample_points_In. right; right. eauto.
  - apply Hin. apply sample_points_In. left. reflexivity.
  - apply Hin. apply sample_points_In. right; left. reflexivity.
Qed.

Lemma test2_passes (exp_f : float -> float) :
  (forall x, In x (sample_points 0%float 1%float 10) -> exp_accurate exp_f (- x)%float) ->
  test2 exp_f = true
  /\ (Rabs (F2R (spec_value (func2 exp_f) 0%float 1%float 10) - 0.632647) < 1e-6)%R.
Proof.
  intros Hacc. apply test2_value_possible in Hacc.
  pose proof test2_values_close as Hclose.
  rewrite forallb_forall in Hclose. apply Hclose in Hacc.
  apply andb_prop in Hacc as [Hfloat Hreal]. split.
  - unfold test2.
    rewrite trapezoidal_rule_run by (unfold CInt.INT_MIN, CInt.INT_MAX; lia).
    exact Hfloat.
  - apply close_in_R_sound in Hreal; [| reflexivity | reflexivity].
    replace 0.632647%R with (632647 / 1000000)%R by lra.
    replace 1e-6%R with (1 / 1000000)%R by lra. exact Hreal.
Qed.

(** The first and the third scenario, on the values the routine returns. *)
Lemma test1_passes :
  test1 = true
  /\ (Rabs (F2R (spec_value func1 1%float 2%float 10) - 0.693771) < 1e-6)%R.
Proof.
  split; [vm_compute; reflexivity |].
  assert (Hreal : close_in_R (spec_value func1 1%float 2%float 10)
                    693771 1000000 1 1000000 = true) by (vm_compute; reflexivity).
  apply close_in_R_sound in Hreal; [| reflexivity | reflexivity].
  replace 0.693771%R with (693771 / 1000000)%R by lra.
  replace 1e-6%R with (1 / 1000000)%R by lra. exact Hreal.
Qed.

Lemma test3_passes :
  test3 = true
  /\ (Rabs (F2R (spec_value func3 0%float 1%float 20) - 0.785294) < 1e-6)%R.
Proof.
  split; [vm_compute; reflexivity |].
  assert (Hreal : close_in_R (spec_value func3 0%float 1%float 20)
                    785294 1000000 1 1000000 = true) by (vm_compute; reflexivity).
  apply close_in_R_sound in Hreal; [| reflexivity | reflexivity].
  replace 0.785294%R with (785294 / 1000000)%R by lra.
  replace 1e-6%R with (1 / 1000000)%R by lra. exact Hreal.
Qed.

(** [exp_model] is accurate wherever [exp_nearest] finds a value. *)
Lemma exp_nearest_accurate (x : float) :
  exp_nearest x <> None -> exp_accurate exp_model x.
Proof.
  unfold exp_accurate, exp_model. intros Hsome. apply exp_close_sound.
  unfold exp_nearest, exp_close in *.
  destruct (exp_enclosure x) as [[L U] |]; [| contradiction].
  destruct (candidates_in L U) as [cs |]; [| contradiction].
  destruct (find (exp_close_in L U) cs) as [c |] eqn:Hfind; [| contradiction].
  now apply find_some in Hfind.
Qed.

(** [exp_model] is accurate at the eleven arguments of the second scenario. *)
Lemma exp_model_accurate :
  forall x, In x (sample_points 0%float 1%float 10) -> exp_accurate exp_model (- x)%float.
Proof.
  assert (Hall : forallb (fun x => match exp_nearest (- x)%float with
                                   | Some _ => true
                                   | None => false
                                   end)
                   (sample_points 0%float 1%float 10) = true)
    by (vm_compute; reflexivity).
  rewrite forallb_forall in Hall.
  intros x Hx. apply exp_nearest_accurate. specialize (Hall x Hx).
  destruct (exp_nearest (- x)%float); [discriminate | discriminate Hall].
Qed.

(** * The properties of the specification *)

(** C1: for every function, all bounds and every n >= 1 the routine returns
    exactly (f(a) + 2*S + f(b)) * h / 2, where h = (b - a)/n and S is the
    sum of f(a + i*h) over i = 1 .. n-1, accumulated from 0.0 in increasing
    i; S is 0.0 when n = 1. The identity holds in any arithmetic of
    [double], in particular in binary64 and over the reals. *)
Theorem trapezoidal_rule_formula
  {D : Type} {ops : DoubleOps D} (func : D -> D) (a b : D) (n : Z) :
  1 <= n <= CInt.INT_MAX ->
  let h := ((b - a) / of_int n)%D in
  let S := fold_left (fun s i => (s + func (a + of_int i * h))%D) (interior n) d_zero in
  returned (trapezoidal_rule func a b n)
    = Some ((func a + of_int 2 * S + func b) * h / of_int 2)%D
  /\ (forall i, In i (interior n) <-> 1 <= i <= n - 1)
  /\ (n = 1 -> S = d_zero).
Proof.
  intros Hn h S. split; [| split].
  - rewrite trapezoidal_rule_run by (unfold CInt.INT_MIN; lia). reflexivity.
  - intros i. apply interior_spec.
  - intros ->. reflexivity.
Qed.

Lemma trapezoidal_rule_formula_witness :
  1 <= 4 <= CInt.INT_MAX /\
  returned (trapezoidal_rule (fun x : R => (x * x)%R) 0%R 2%R 4)
  = Some ((0 * 0 + 2 * (0 + (0 + 1 * ((2 - 0) / 4)) * (0 + 1 * ((2 - 0) / 4))
                          + (0 + 2 * ((2 - 0) / 4)) * (0 + 2 * ((2 - 0) / 4))
                          + (0 + 3 * ((2 - 0) / 4)) * (0 + 3 * ((2 - 0) / 4)))
           + 2 * 2) * ((2 - 0) / 4) / 2)%R.
Proof.
  split; [unfold CInt.INT_MAX; lia |].
  refine (proj1 (trapezoidal_rule_formula (fun x : R => (x * x)%R) 0%R 2%R 4 _)).
  unfold CInt.INT_MAX; lia.
Defined.

(** C2: the three scenarios of the self-test reproduce their reference
    values within 1e-6: the assertions of [test], which measure the
    distance in binary64, hold, and the real numbers the returned values
    stand for are within 1e-6 of 0.693771, 0.632647 and 0.785294. The first
    and the third scenario involve binary64 arithmetic only. The second
    calls the library exponential, which is not part of the repository: it
    holds for every [exp] that is within 2^-53 of the exponential at the
    eleven arguments it is called on. *)
Theorem self_test_passes (exp_f : float -> float) :
  (forall x, In x (sample_points 0%float 1%float 10) -> exp_accurate exp_f (- x)%float) ->
  test exp_f = true
  /\ exists v1 v2 v3 : float,
       returned (trapezoidal_rule func1 1%float 2%float 10) = Some v1
       /\ returned (trapezoidal_rule (func2 exp_f) 0%float 1%float 10) = Some v2
       /\ returned (trapezoidal_rule func3 0%float 1%float 20) = Some v3
       /\ (abs (v1 - 0.693771) <? 1e-6)%float = true
       /\ (abs (v2 - 0.632647) <? 1e-6)%float = true
       /\ (abs (v3 - 0.785294) <? 1e-6)%float = true
       /\ (Rabs (F2R v1 - 0.693771) < 1e-6)%R
       /\ (Rabs (F2R v2 - 0.632647) < 1e-6)%R
       /\ (Rabs (F2R v3 - 0.785294) < 1e-6)%R.
Proof.
  intros Hacc.
  destruct test1_passes as [H1 R1].
  destruct (test2_passes exp_f Hacc) as [H2 R2].
  destruct test3_passes as [H3 R3].
  split; [unfold test; now rewrite H1, H2, H3 |].
  assert (Hr : forall n, 1 <= n <= 20 -> CInt.INT_MIN < n <= CInt.INT_MAX)
    by (unfold CInt.INT_MIN, CInt.INT_MAX; lia).
  unfold test1 in H1. unfold test2 in H2. unfold test3 in H3.
  rewrite trapezoidal_rule_run in H1 by (apply Hr; lia).
  rewrite trapezoidal_rule_run in H2 by (apply Hr; lia).
  rewrite trapezoidal_rule_run in H3 by (apply Hr; lia).
  rewrite !trapezoidal_rule_run by (apply Hr; lia).
  exists (spec_value func1 1%float 2%float 10),
         (spec_value (func2 exp_f) 0%float 1%float 10),
         (spec_value func3 0%float 1%float 20).
  split; [reflexivity |]. split; [reflexivity |]. split; [reflexivity |].
  split; [exact H1 |]. split; [exact H2 |]. split; [exact H3 |].
  split; [exact R1 |]. split; [exact R2 | exact R3].
Qed.

Lemma self_test_passes_witness :
  (forall x, In x (sample_points 0%float 1%float 10) -> exp_accurate exp_model (- x)%float)
  /\ test exp_model = true.
Proof.
  split; [exact exp_model_accurate |].
  exact (proj1 (self_test_passes exp_model exp_model_accurate)).
Defined.

(** C3, as the code has it: on a zero-width interval with n >= 1 the
    routine returns exactly 0 for every function over real arithmetic. In
    binary64, for a finite bound a, the step width is +0.0 and the value
    returned is a zero (+0.0 or -0.0, equal to 0 under ==) when the bracket
    f(a) + 2*S + f(a) is finite, and NaN when the bracket is infinite or
    NaN (f not finite at a, or the sum overflows). *)
Theorem zero_width_interval
  (n : Z) (g : R -> R) (c : R) (f : float -> float) (a : float) :
  1 <= n <= CInt.INT_MAX ->
  is_finite a = true ->
  returned (trapezoidal_rule g c c n) = Some 0%R
  /\ step_width a a n = 0%float
  /\ exists v : float,
       returned (trapezoidal_rule f a a n) = Some v
       /\ (is_finite (bracket f a a n) = true -> is_zero v = true)
       /\ (is_finite (bracket f a a n) = false -> is_nan v = true).
Proof.
  intros Hn Ha.
  assert (Hr : CInt.INT_MIN < n <= CInt.INT_MAX) by (unfold CInt.INT_MIN; lia).
  split; [| split].
  - rewrite returned_real by exact Hr. f_equal.
    unfold Rdiv. ring.
  - now apply step_width_zero.
  - eexists. split.
    + rewrite trapezoidal_rule_run by exact Hr. reflexivity.
    + unfold spec_value. rewrite (step_width_zero a n Ha Hn).
      split; [apply times_zero_finite | apply times_zero_not_finite].
Qed.

Lemma zero_width_interval_witness :
  1 <= 3 <= CInt.INT_MAX /\
  is_finite 2%float = true /\
  returned (trapezoidal_rule (fun x => x * x)%R 5%R 5%R 3) = Some 0%R /\
  step_width 2%float 2%float 3 = 0%float /\
  exists v : float,
    returned (trapezoidal_rule func3 2%float 2%float 3) = Some v
    /\ is_zero v = true.
Proof.
  assert (Hn : 1 <= 3 <= CInt.INT_MAX) by (unfold CInt.INT_MAX; lia).
  destruct (zero_width_interval 3 (fun x => x * x)%R 5%R func3 2%float Hn eq_refl)
    as (Hreal & Hstep & v & Hv & Hzero & _).
  repeat split; try assumption; try reflexivity; try apply Hn.
  exists v. split; [exact Hv |]. apply Hzero. vm_compute. reflexivity.
Defined.

(** C3 fails in binary64 for the source's own [func1] (1/x) on the
    zero-width interval at 0 with n = 1: f(0) is infinite and the routine
    returns NaN, which does not compare equal to 0. *)
Lemma zero_width_interval_nan :
  is_finite 0%float = true
  /\ exists v : float,
       returned (trapezoidal_rule func1 0%float 0%float 1) = Some v
       /\ (v =? 0)%float = false
       /\ is_nan v = true.
Proof.
  split; [reflexivity |].
  exists nan. split; [| split]; vm_compute; reflexivity.
Qed.

(** C4: on a linear function f(x) = c0 + c1*x the rule is exact over real
    arithmetic: for all bounds and every n >= 1 the routine returns
    c0*(b - a) + c1*(b^2 - a^2)/2, the integral of f from a to b. *)
Theorem linear_exact (c0 c1 a b : R) (n : Z) :
  1 <= n <= CInt.INT_MAX ->
  returned (trapezoidal_rule (fun x => c0 + c1 * x)%R a b n)
  = Some (c0 * (b - a) + c1 * (b * b - a * a) / 2)%R.
Proof.
  intros Hn. rewrite returned_real by (unfold CInt.INT_MIN; lia). f_equal.
  assert (Hn0 : IZR n <> 0%R) by (apply not_0_IZR; lia).
  rewrite (Rsum_ext _ (fun i => (c0 + c1 * a) + (c1 * ((b - a) / IZR n)) * IZR i)%R)
    by (intros i _; ring).
  unfold interior. rewrite Rsum_affine.
  rewrite INR_IZR_INZ, Z2Nat.id by lia. rewrite minus_IZR.
  field. exact Hn0.
Qed.

Lemma linear_exact_witness :
  1 <= 4 <= CInt.INT_MAX /\
  returned (trapezoidal_rule (fun x => 3 + 2 * x)%R 1%R 5%R 4)
  = Some (3 * (5 - 1) + 2 * (5 * 5 - 1 * 1) / 2)%R.
Proof.
  split; [unfold CInt.INT_MAX; lia |].
  apply (linear_exact 3 2 1 5 4).
  unfold CInt.INT_MAX; lia.
Defined.

(** In binary64 the rule is exact on linear functions up to rounding only:
    1 + 3*x on [0, 2] with n = 7 gives 7.999999999999998 for the integral 8. *)
Remark linear_rounds_in_binary64 :
  returned (trapezoidal_rule (fun x => 1 + 3 * x)%float 0%float 2%float 7)
  = Some 7.999999999999998%float
  /\ (1 * (2 - 0) + 3 * (2 * 2 - 0 * 0) / 2)%float = 8%float.
Proof. split; vm_compute; reflexivity. Qed.

(** C5: reversal antisymmetry over real arithmetic: for every function,
    all bounds and every n >= 1, the value returned for (a, b) is the
    opposite of the value returned for (b, a). *)
Theorem reversal_antisymmetry (f : R -> R) (a b : R) (n : Z) :
  1 <= n <= CInt.INT_MAX ->
  exists v : R,
    returned (trapezoidal_rule f b a n) = Some v
    /\ returned (trapezoidal_rule f a b n) = Some (- v)%R.
Proof.
  intros Hn. eexists. split.
  - apply returned_real. unfold CInt.INT_MIN; lia.
  - rewrite returned_real by (unfold CInt.INT_MIN; lia). f_equal.
    assert (Hn0 : IZR n <> 0%R) by (apply not_0_IZR; lia).
    rewrite <- (Rsum_rev _ (interior n)), <- interior_mirror, Rsum_map.
    rewrite (Rsum_ext (fun i => f (a + IZR (n - i) * ((b - a) / IZR n))%R)
                      (fun i => f (b + IZR i * ((a - b) / IZR n))%R)).
    + field. exact Hn0.
    + intros i _. f_equal. rewrite minus_IZR. field. exact Hn0.
Qed.

Lemma reversal_antisymmetry_witness :
  1 <= 2 <= CInt.INT_MAX /\
  exists v : R,
    returned (trapezoidal_rule (fun x => x * x)%R 3%R 1%R 2) = Some v
    /\ returned (trapezoidal_rule (fun x => x * x)%R 1%R 3%R 2) = Some (- v)%R.
Proof.
  split; [unfold CInt.INT_MAX; lia |].
  apply (reversal_antisymmetry (fun x => x * x)%R 1%R 3%R 2).
  unfold CInt.INT_MAX; lia.
Defined.

(** In binary64 the two directions agree up to rounding only: for 1/x
    between 1 and 2 with n = 3 they differ in the last place. *)
Remark reversal_rounds_in_binary64 :
  returned (trapezoidal_rule func1 1%float 2%float 3) = Some 0.7%float
  /\ returned (trapezoidal_rule func1 2%float 1%float 3) = Some (- 0.6999999999999998)%float.
Proof. split; vm_compute; reflexivity. Qed.

(** C6: linearity over real arithmetic: for all constants alpha and beta,
    functions f and g, bounds and every fixed n >= 1, the value returned
    for alpha*f + beta*g is alpha times the value for f plus beta times the
    value for g. *)
Theorem linearity (alpha beta : R) (f g : R -> R) (a b : R) (n : Z) :
  1 <= n <= CInt.INT_MAX ->
  exists vf vg : R,
    returned (trapezoidal_rule f a b n) = Some vf
    /\ returned (trapezoidal_rule g a b n) = Some vg
    /\ returned (trapezoidal_rule (fun x => alpha * f x + beta * g x)%R a b n)
       = Some (alpha * vf + beta * vg)%R.
Proof.
  intros Hn.
  assert (Hr : CInt.INT_MIN < n <= CInt.INT_MAX) by (unfold CInt.INT_MIN; lia).
  do 2 eexists. split; [apply returned_real, Hr | split; [apply returned_real, Hr |]].
  rewrite returned_real by exact Hr. f_equal.
  rewrite (Rsum_linear alpha beta
             (fun i => f (a + IZR i * ((b - a) / IZR n))%R)
             (fun i => g (a + IZR i * ((b - a) / IZR n))%R)).
  assert (Hn0 : IZR n <> 0%R) by (apply not_0_IZR; lia).
  field. exact Hn0.
Qed.

Lemma linearity_witness :
  1 <= 2 <= CInt.INT_MAX /\
  exists vf vg : R,
    returned (trapezoidal_rule (fun x => x * x)%R 0%R 1%R 2) = Some vf
    /\ returned (trapezoidal_rule (fun x => x + 1)%R 0%R 1%R 2) = Some vg
    /\ returned (trapezoidal_rule (fun x => 3 * (x * x) + 5 * (x + 1))%R 0%R 1%R 2)
       = Some (3 * vf + 5 * vg)%R.
Proof.
  split; [unfold CInt.INT_MAX; lia |].
  apply (linearity 3 5 (fun x => x * x)%R (fun x => x + 1)%R 0%R 1%R 2).
  unfold CInt.INT_MAX; lia.
Defined.

(** In binary64 linearity holds up to rounding only: with [func1], [func3],
    the constants 3 and 5 and n = 3 on [1, 2] the two sides differ in the
    last place. *)
Remark linearity_rounds_in_binary64 :
  returned (trapezoidal_rule (fun x => 3 * func1 x + 5 * func3 x)%float 1%float 2%float 3)
  = Some 3.7245098039215687%float
  /\ exists vf vg : float,
       returned (trapezoidal_rule func1 1%float 2%float 3) = Some vf
       /\ returned (trapezoidal_rule func3 1%float 2%float 3) = Some vg
       /\ (3 * vf + 5 * vg)%float = 3.7245098039215683%float.
Proof.
  split; [vm_compute; reflexivity |].
  do 2 eexists. split; [vm_compute; reflexivity |].
  split; vm_compute; reflexivity.
Qed.

(** C7: for every n >= 1 a call invokes the supplied function exactly n+1
    times: on the interior points a + i*h, i = 1 .. n-1 (in this order),
    then on a and on b; it is invoked on no other point. *)
Theorem trapezoidal_rule_invocations
  {D : Type} {ops : DoubleOps D} (func : D -> D) (a b : D) (n : Z) :
  1 <= n <= CInt.INT_MAX ->
  let h := ((b - a) / of_int n)%D in
  exists calls : list D,
    invoked (trapezoidal_rule func a b n) = Some calls
    /\ calls = map (fun i => (a + of_int i * h)%D) (interior n) ++ [a; b]
    /\ Z.of_nat (length calls) = n + 1
    /\ (forall x, In x calls <->
          x = a \/ x = b \/ exists i, 1 <= i <= n - 1 /\ x = (a + of_int i * h)%D).
Proof.
  intros Hn h. eexists. split; [| split; [reflexivity | split]].
  - rewrite trapezoidal_rule_run by (unfold CInt.INT_MIN; lia). reflexivity.
  - rewrite length_app, length_map, interior_length. simpl. lia.
  - intros x. rewrite in_app_iff, in_map_iff. simpl. split.
    + intros [[i [Hx Hi]] | [Hx | [Hx | []]]]; auto.
      right; right. exists i. apply interior_spec in Hi. auto.
    + intros [Hx | [Hx | [i [Hi Hx]]]]; auto.
      left. exists i. apply interior_spec in Hi. auto.
Qed.

Lemma trapezoidal_rule_invocations_witness :
  1 <= 3 <= CInt.INT_MAX /\
  exists calls : list R,
    invoked (trapezoidal_rule (fun x : R => x) 0%R 3%R 3) = Some calls
    /\ calls = [0 + 1 * ((3 - 0) / 3); 0 + 2 * ((3 - 0) / 3); 0; 3]%R
    /\ Z.of_nat (length calls) = 3 + 1
    /\ (forall x, In x calls <->
          x = 0%R \/ x = 3%R \/
          exists i, 1 <= i <= 3 - 1 /\ x = (0 + IZR i * ((3 - 0) / 3))%R).
Proof.
  split; [unfold CInt.INT_MAX; lia |].
  refine (trapezoidal_rule_invocations (fun x : R => x) 0%R 3%R 3 _).
  unfold CInt.INT_MAX; lia.
Defined.

(** C8: for every function and all bounds, a call with n = 0 raises no
    error: the step width h = (b - a)/0 is infinite or NaN, the loop makes
    no pass, and the value returned is not finite (NaN or Inf). *)
Theorem zero_subdivisions_not_finite (func : float -> float) (a b : float) :
  is_finite (step_width a b 0) = false
  /\ exists v : float,
       trapezoidal_rule func a b 0 = Some (v, [a; b])
       /\ v = ((func a + 2 * 0 + func b) * ((b - a) / 0) / 2)%float
       /\ is_finite v = false.
Proof.
  split.
  - apply div_zero_not_finite.
  - eexists. split; [| split; [reflexivity |]].
    + rewrite trapezoidal_rule_run by (unfold CInt.INT_MIN, CInt.INT_MAX; lia).
      reflexivity.
    + apply div_two_not_finite, mul_not_finite, div_zero_not_finite.
Qed.

(** C9, as the code has it: for every negative n other than INT_MIN the
    loop makes no pass, no error is raised, the function is called on a
    and b only, and the routine returns (f(a) + 2*0.0 + f(b)) * h / 2 with
    h = (b - a)/n, in whatever arithmetic [double] has; over real
    arithmetic that value is (f(a) + f(b)) * (b - a) / (2*n). *)
Theorem negative_subdivisions
  {D : Type} {ops : DoubleOps D} (func : D -> D) (a b : D)
  (g : R -> R) (c d : R) (n : Z) :
  CInt.INT_MIN < n <= -1 ->
  trapezoidal_rule func a b n
  = Some (((func a + of_int 2 * d_zero + func b) * ((b - a) / of_int n) / of_int 2)%D,
          [a; b])
  /\ returned (trapezoidal_rule g c d n)
     = Some ((g c + g d) * (d - c) / (2 * IZR n))%R.
Proof.
  intros Hn.
  assert (Hr : CInt.INT_MIN < n <= CInt.INT_MAX) by (unfold CInt.INT_MAX; lia).
  split.
  - rewrite trapezoidal_rule_run by exact Hr.
    unfold spec_value, bracket, interior_sum.
    rewrite interior_empty by lia. reflexivity.
  - rewrite returned_real by exact Hr. f_equal.
    rewrite interior_empty by lia.
    assert (Hn0 : IZR n <> 0%R) by (apply not_0_IZR; lia).
    simpl. field. exact Hn0.
Qed.

Lemma negative_subdivisions_witness :
  CInt.INT_MIN < -2 <= -1 /\
  trapezoidal_rule func3 1%float 2%float (-2)
  = Some (((func3 1 + 2 * 0 + func3 2) * ((2 - 1) / -2) / 2)%float,
          [1%float; 2%float])
  /\ returned (trapezoidal_rule (fun x => x * x)%R 1%R 3%R (-2))
     = Some ((1 * 1 + 3 * 3) * (3 - 1) / (2 * -2))%R.
Proof.
  split; [unfold CInt.INT_MIN; lia |].
  refine (negative_subdivisions func3 1%float 2%float (fun x => x * x)%R 1%R 3%R (-2) _).
  unfold CInt.INT_MIN; lia.
Defined.

(** C9 fails on two inputs. With n = -1 and the constant function 1e308,
    finite at both bounds, the bracket overflows and the routine returns
    -Inf, where (f(a) + f(b)) * (b - a) / (2*n) is -1e308, a finite
    binary64 value. With
    n = INT_MIN the guard's n - 1 overflows and nothing is returned. *)
Lemma negative_subdivisions_not_finite :
  (is_finite 1e308%float = true
   /\ is_finite (- 1e308)%float = true
   /\ returned (trapezoidal_rule (fun _ : float => 1e308%float) 0%float 1%float (-1))
      = Some neg_infinity
   /\ is_finite neg_infinity = false)
  /\ returned (trapezoidal_rule (fun _ : float => 1e308%float) 0%float 1%float CInt.INT_MIN)
     = None.
Proof.
  split.
  - repeat split; vm_compute; reflexivity.
  - now rewrite trapezoidal_rule_INT_MIN.
Qed.

(** C10, as the code has it: for every n <= 1 other than INT_MIN (zero and
    negative n included) the interior loop makes no call and the supplied
    function is invoked exactly twice, on a and then on b. In binary64 a
    function that is not finite at an endpoint then makes the value
    returned not finite, although no interior point is sampled. *)
Theorem degenerate_n_two_invocations
  {D : Type} {ops : DoubleOps D} (func : D -> D) (a b : D)
  (f : float -> float) (x y : float) (n : Z) :
  CInt.INT_MIN < n <= 1 ->
  invoked (trapezoidal_rule func a b n) = Some [a; b]
  /\ (is_finite (f x) = false \/ is_finite (f y) = false ->
      exists v : float,
        returned (trapezoidal_rule f x y n) = Some v /\ is_finite v = false).
Proof.
  intros Hn.
  assert (Hr : CInt.INT_MIN < n <= CInt.INT_MAX) by (unfold CInt.INT_MAX; lia).
  split.
  - rewrite trapezoidal_rule_run by exact Hr.
    simpl. rewrite interior_empty by lia. reflexivity.
  - intros Hend. eexists. split.
    + rewrite trapezoidal_rule_run by exact Hr. reflexivity.
    + unfold spec_value, bracket, interior_sum.
      rewrite interior_empty by lia. cbn [fold_left].
      apply div_two_not_finite, mul_not_finite_l.
      destruct Hend as [Hx | Hy].
      * apply add_not_finite_l, add_not_finite_l, Hx.
      * apply add_not_finite_r, Hy.
Qed.

Lemma degenerate_n_two_invocations_witness :
  CInt.INT_MIN < 0 <= 1 /\
  invoked (trapezoidal_rule func3 1%float 2%float 0) = Some [1%float; 2%float] /\
  is_finite (func1 0%float) = false /\
  exists v : float,
    returned (trapezoidal_rule func1 0%float 1%float 0) = Some v /\ is_finite v = false.
Proof.
  assert (Hn : CInt.INT_MIN < 0 <= 1) by (unfold CInt.INT_MIN; lia).
  destruct (degenerate_n_two_invocations func3 1%float 2%float func1 0%float 1%float 0 Hn)
    as [Hcalls Hend].
  repeat split; try apply Hn; try exact Hcalls; try reflexivity.
  apply Hend. left. reflexivity.
Defined.

(** C10 fails at n = INT_MIN, an [int] with n <= 1: the guard's n - 1
    overflows and the call has no defined behaviour, so no pair of
    invocations is guaranteed. *)
Lemma degenerate_n_INT_MIN_undefined :
  CInt.INT_MIN <= 1 /\
  invoked (trapezoidal_rule func3 1%float 2%float CInt.INT_MIN)
  <> Some [1%float; 2%float].
Proof.
  split; [unfold CInt.INT_MIN; lia |].
  rewrite trapezoidal_rule_INT_MIN. discriminate.
Qed.

(** * Further properties of the routine *)

(** ** Over real arithmetic *)

Section RealRule.

Local Open Scope R_scope.

Lemma Zseq_app (k1 k2 : nat) :
  forall s, Zseq s (k1 + k2) = Zseq s k1 ++ Zseq (s + Z.of_nat k1) k2.
Proof.
  induction k1 as [|k1 IH]; intros s.
  - simpl. now rewrite Z.add_0_r.
  - cbn [Nat.add Zseq app]. rewrite IH. do 3 f_equal. lia.
Qed.

Lemma Zseq_shift (c : Z) (k : nat) :
  forall s, Zseq (c + s) k = map (fun i => (c + i)%Z) (Zseq s k).
Proof.
  induction k as [|k IH]; intros s.
  - reflexivity.
  - cbn [Zseq map]. rewrite <- IH. do 2 f_equal. lia.
Qed.

(** The interior indices of [2n] panels: those of [n] panels, the middle
    index, and those of [n] panels again, shifted by [n]. *)
Lemma interior_double (n : Z) :
  (1 <= n)%Z ->
  interior (2 * n) = interior n ++ n :: map (fun i => (n + i)%Z) (interior n).
Proof.
  intros Hn. unfold interior.
  replace (Z.to_nat (2 * n - 1)) with (Z.to_nat (n - 1) + S (Z.to_nat (n - 1)))%nat by lia.
  rewrite Zseq_app. f_equal. cbn [Zseq]. f_equal; [lia |].
  rewrite <- Zseq_shift. f_equal. lia.
Qed.

(** A sum of terms between [m] and [M]. *)
Lemma Rsum_bounds (g : Z -> R) (m M : R) (l : list Z) :
  (forall i, In i l -> m <= g i <= M) ->
  INR (length l) * m <= Rsum g l <= INR (length l) * M.
Proof.
  induction l as [|i l IH]; intros Hg.
  - simpl. lra.
  - cbn [length Rsum fold_right]. fold (Rsum g l). rewrite S_INR.
    pose proof (Hg i (or_introl eq_refl)) as Hi.
    assert (Hl : forall j, In j l -> m <= g j <= M)
      by (intros j Hj; apply Hg; right; exact Hj).
    specialize (IH Hl). lra.
Qed.

(** The sum of a quadratic function of the index over [1 .. k]. *)
Lemma Rsum_quadratic (p q r : R) (k : nat) :
  Rsum (fun i => p + q * IZR i + r * (IZR i * IZR i)) (Zseq 1 k)
  = INR k * p + q * (INR k * (INR k + 1) / 2)
    + r * (INR k * (INR k + 1) * (2 * INR k + 1) / 6).
Proof.
  induction k as [|k IH].
  - simpl. lra.
  - rewrite Zseq_snoc, Rsum_app, IH. cbn [Rsum fold_right].
    rewrite S_INR, plus_IZR, <- INR_IZR_INZ. lra.
Qed.

End RealRule.

(** X1: over real arithmetic the value returned lies between the least and
    the greatest sample: when a <= b, n >= 1 and m <= f <= M at the n+1
    points the routine samples, the result is between m*(b - a) and
    M*(b - a). *)
Theorem value_between_sample_bounds (f : R -> R) (a b m M : R) (n : Z) :
  1 <= n <= CInt.INT_MAX ->
  (a <= b)%R ->
  (forall x, In x (sample_points a b n) -> m <= f x <= M)%R ->
  exists v : R,
    returned (trapezoidal_rule f a b n) = Some v
    /\ (m * (b - a) <= v <= M * (b - a))%R.
Proof.
  intros Hn Hab Hf. eexists. split.
  - apply returned_real. unfold CInt.INT_MIN; lia.
  - assert (Hn1 : (1 <= IZR n)%R) by (apply IZR_le; lia).
    pose proof (Hf a) as Ha. pose proof (Hf b) as Hb.
    rewrite sample_points_In in Ha, Hb.
    specialize (Ha (or_introl eq_refl)). specialize (Hb (or_intror (or_introl eq_refl))).
    pose proof (Rsum_bounds (fun i => f (a + IZR i * ((b - a) / IZR n))%R) m M (interior n))
      as Hsum.
    rewrite interior_length, INR_IZR_INZ, Z2Nat.id, minus_IZR in Hsum by lia.
    assert (Hint : forall i, In i (interior n) ->
                             (m <= f (a + IZR i * ((b - a) / IZR n)) <= M)%R).
    { intros i Hi. apply Hf. apply sample_points_In. right; right.
      exists i. split; [exact Hi | reflexivity]. }
    specialize (Hsum Hint).
    set (S := Rsum (fun i => f (a + IZR i * ((b - a) / IZR n))%R) (interior n)) in *.
    set (w := ((b - a) / IZR n / 2)%R).
    assert (Hw : (0 <= w)%R).
    { unfold w, Rdiv. repeat apply Rmult_le_pos; try lra.
      apply Rlt_le, Rinv_0_lt_compat. lra. }
    assert (Hwn : (w * (2 * IZR n) = b - a)%R) by (unfold w; field; lra).
    replace ((f a + 2 * S + f b) * ((b - a) / IZR n) / 2)%R
      with ((f a + 2 * S + f b) * w)%R by (unfold w; field; lra).
    rewrite <- Hwn. split.
    + replace (m * (w * (2 * IZR n)))%R with ((2 * IZR n * m) * w)%R by ring.
      apply Rmult_le_compat_r; [exact Hw | lra].
    + replace (M * (w * (2 * IZR n)))%R with ((2 * IZR n * M) * w)%R by ring.
      apply Rmult_le_compat_r; [exact Hw | lra].
Qed.

Lemma value_between_sample_bounds_witness :
  1 <= 2 <= CInt.INT_MAX /\
  (0 <= 2)%R /\
  (forall x, In x (sample_points 0%R 2%R 2) -> 0 <= x * x <= 4)%R /\
  exists v : R,
    returned (trapezoidal_rule (fun x => x * x)%R 0%R 2%R 2) = Some v
    /\ (0 * (2 - 0) <= v <= 4 * (2 - 0))%R.
Proof.
  assert (Hn : 1 <= 2 <= CInt.INT_MAX) by (unfold CInt.INT_MAX; lia).
  assert (Hab : (0 <= 2)%R) by lra.
  assert (Hf : (forall x, In x (sample_points 0%R 2%R 2) -> 0 <= x * x <= 4)%R).
  { intros x Hx. cbn in Hx.
    destruct Hx as [<- | [<- | [<- | []]]];
      unfold point; cbn [d_add d_mul of_int Exact]; lra. }
  repeat split; try apply Hn; try exact Hab; try apply Hf; try assumption.
  exact (value_between_sample_bounds (fun x => x * x)%R 0%R 2%R 0%R 4%R 2 Hn Hab Hf).
Defined.

(** X2: over real arithmetic two adjacent intervals of equal width compose:
    when b is the midpoint of a and c, the value for [a, b] with n panels
    plus the value for [b, c] with n panels is the value for [a, c] with
    2n panels. *)
Theorem adjacent_intervals_compose (f : R -> R) (a b c : R) (n : Z) :
  1 <= n -> 2 * n <= CInt.INT_MAX ->
  (c - b = b - a)%R ->
  exists v1 v2 v : R,
    returned (trapezoidal_rule f a b n) = Some v1
    /\ returned (trapezoidal_rule f b c n) = Some v2
    /\ returned (trapezoidal_rule f a c (2 * n)) = Some v
    /\ v = (v1 + v2)%R.
Proof.
  intros Hn H2n Hmid.
  assert (Hr : CInt.INT_MIN < n <= CInt.INT_MAX) by (unfold CInt.INT_MIN; lia).
  assert (Hr2 : CInt.INT_MIN < 2 * n <= CInt.INT_MAX) by (unfold CInt.INT_MIN; lia).
  assert (Hn0 : IZR n <> 0%R) by (apply not_0_IZR; lia).
  do 3 eexists.
  split; [apply returned_real, Hr |].
  split; [apply returned_real, Hr |].
  split; [apply returned_real, Hr2 |].
  rewrite interior_double, Rsum_app by exact Hn.
  cbn [Rsum fold_right].
  fold (Rsum (fun i => f (a + IZR i * ((c - a) / IZR (2 * n)))%R)
             (map (fun i => (n + i)%Z) (interior n))).
  rewrite Rsum_map.
  assert (Hh : ((c - a) / IZR (2 * n) = (b - a) / IZR n)%R).
  { rewrite mult_IZR. replace (c - a)%R with (2 * (b - a))%R by lra. field. exact Hn0. }
  assert (Hh' : ((c - b) / IZR n = (b - a) / IZR n)%R) by (now rewrite Hmid).
  rewrite Hh, Hh'.
  replace (a + IZR n * ((b - a) / IZR n))%R with b by (field; exact Hn0).
  rewrite (Rsum_ext (fun i => f (a + IZR (n + i) * ((b - a) / IZR n))%R)
                    (fun i => f (b + IZR i * ((b - a) / IZR n))%R)).
  - field. exact Hn0.
  - intros i _. f_equal. rewrite plus_IZR. field. exact Hn0.
Qed.

Lemma adjacent_intervals_compose_witness :
  1 <= 2 /\ 2 * 2 <= CInt.INT_MAX /\ (5 - 3 = 3 - 1)%R /\
  exists v1 v2 v : R,
    returned (trapezoidal_rule (fun x => x * x * x)%R 1%R 3%R 2) = Some v1
    /\ returned (trapezoidal_rule (fun x => x * x * x)%R 3%R 5%R 2) = Some v2
    /\ returned (trapezoidal_rule (fun x => x * x * x)%R 1%R 5%R (2 * 2)) = Some v
    /\ v = (v1 + v2)%R.
Proof.
  assert (H1 : 1 <= 2) by lia.
  assert (H2 : 2 * 2 <= CInt.INT_MAX) by (unfold CInt.INT_MAX; lia).
  assert (H3 : (5 - 3 = 3 - 1)%R) by lra.
  split; [exact H1 |]. split; [exact H2 |]. split; [exact H3 |].
  exact (adjacent_intervals_compose (fun x => x * x * x)%R 1%R 3%R 5%R 2 H1 H2 H3).
Defined.

(** X3: over real arithmetic the rule commutes with an affine change of
    variable: integrating x -> f(s*x + c) over [a, b] and multiplying by s
    gives the value for f over [s*a + c, s*b + c], with the same n. *)
Theorem affine_change_of_variable (f : R -> R) (s c a b : R) (n : Z) :
  1 <= n <= CInt.INT_MAX ->
  exists v w : R,
    returned (trapezoidal_rule (fun x => f (s * x + c))%R a b n) = Some v
    /\ returned (trapezoidal_rule f (s * a + c)%R (s * b + c)%R n) = Some w
    /\ w = (s * v)%R.
Proof.
  intros Hn.
  assert (Hr : CInt.INT_MIN < n <= CInt.INT_MAX) by (unfold CInt.INT_MIN; lia).
  assert (Hn0 : IZR n <> 0%R) by (apply not_0_IZR; lia).
  do 2 eexists.
  split; [apply returned_real, Hr |].
  split; [apply returned_real, Hr |].
  rewrite (Rsum_ext
             (fun i => f (s * a + c + IZR i * ((s * b + c - (s * a + c)) / IZR n))%R)
             (fun i => f (s * (a + IZR i * ((b - a) / IZR n)) + c)%R)).
  - field. exact Hn0.
  - intros i _. f_equal. field. exact Hn0.
Qed.

Lemma affine_change_of_variable_witness :
  1 <= 3 <= CInt.INT_MAX /\
  exists v w : R,
    returned (trapezoidal_rule (fun x => (2 * x + 1) * (2 * x + 1))%R 0%R 1%R 3) = Some v
    /\ returned (trapezoidal_rule (fun x => x * x)%R (2 * 0 + 1)%R (2 * 1 + 1)%R 3) = Some w
    /\ w = (2 * v)%R.
Proof.
  assert (Hn : 1 <= 3 <= CInt.INT_MAX) by (unfold CInt.INT_MAX; lia).
  split; [exact Hn |].
  exact (affine_change_of_variable (fun x => x * x)%R 2%R 1%R 0%R 1%R 3 Hn).
Defined.

(** X4: over real arithmetic the error on a quadratic is known exactly: for
    f(x) = c0 + c1*x + c2*x^2 the routine returns the integral of f over
    [a, b] plus c2*(b - a)^3/(6*n^2); the error falls as 1/n^2. *)
Theorem quadratic_error (c0 c1 c2 a b : R) (n : Z) :
  1 <= n <= CInt.INT_MAX ->
  returned (trapezoidal_rule (fun x => c0 + c1 * x + c2 * (x * x))%R a b n)
  = Some (c0 * (b - a) + c1 * (b * b - a * a) / 2 + c2 * (b * b * b - a * a * a) / 3
          + c2 * ((b - a) * (b - a) * (b - a)) / (6 * (IZR n * IZR n)))%R.
Proof.
  intros Hn. rewrite returned_real by (unfold CInt.INT_MIN; lia). f_equal.
  assert (Hn0 : IZR n <> 0%R) by (apply not_0_IZR; lia).
  set (h := ((b - a) / IZR n)%R).
  rewrite (Rsum_ext _ (fun i => (c0 + c1 * a + c2 * (a * a))
                                + (c1 * h + 2 * c2 * a * h) * IZR i
                                + (c2 * (h * h)) * (IZR i * IZR i))%R)
    by (intros i _; ring).
  unfold interior. rewrite Rsum_quadratic.
  rewrite INR_IZR_INZ, Z2Nat.id by lia. rewrite minus_IZR.
  unfold h. field. exact Hn0.
Qed.

Lemma quadratic_error_witness :
  1 <= 2 <= CInt.INT_MAX /\
  returned (trapezoidal_rule (fun x => 1 + 2 * x + 3 * (x * x))%R 0%R 2%R 2)
  = Some (1 * (2 - 0) + 2 * (2 * 2 - 0 * 0) / 2 + 3 * (2 * 2 * 2 - 0 * 0 * 0) / 3
          + 3 * ((2 - 0) * (2 - 0) * (2 - 0)) / (6 * (2 * 2)))%R.
Proof.
  split; [unfold CInt.INT_MAX; lia |].
  apply (quadratic_error 1 2 3 0 2 2).
  unfold CInt.INT_MAX; lia.
Defined.



(** ** In any arithmetic of [double] *)

(** X6: among the values of [int], the call is undefined for n = INT_MIN
    only: the guard's n - 1 overflows there, and for every other n the
    routine returns, the counter's i++ never overflowing. *)
Theorem undefined_only_at_INT_MIN
  {D : Type} {ops : DoubleOps D} (func : D -> D) (a b : D) (n : Z) :
  CInt.INT_MIN <= n <= CInt.INT_MAX ->
  (trapezoidal_rule func a b n = None <-> n = CInt.INT_MIN).
Proof.
  intros Hn. split.
  - intros Hnone. destruct (Z.eq_dec n CInt.INT_MIN) as [Heq | Hneq]; [exact Heq |].
    rewrite trapezoidal_rule_run in Hnone by lia. discriminate.
  - intros ->. apply trapezoidal_rule_INT_MIN.
Qed.

Lemma undefined_only_at_INT_MIN_witness :
  CInt.INT_MIN <= -5 <= CInt.INT_MAX /\
  (trapezoidal_rule func3 0%float 1%float (-5) = None <-> -5 = CInt.INT_MIN).
Proof.
  split; [unfold CInt.INT_MIN, CInt.INT_MAX; lia |].
  apply (undefined_only_at_INT_MIN func3 0%float 1%float (-5)).
  unfold CInt.INT_MIN, CInt.INT_MAX; lia.
Defined.

Lemma fold_left_ext_In (A B : Type) (g1 g2 : A -> B -> A) (l : list B) :
  (forall s i, In i l -> g1 s i = g2 s i) ->
  forall acc, fold_left g1 l acc = fold_left g2 l acc.
Proof.
  induction l as [|i l IH]; intros Hg acc; [reflexivity |].
  cbn [fold_left]. rewrite (Hg acc i) by (left; reflexivity).
  apply IH. intros s j Hj. apply Hg. right. exact Hj.
Qed.

(** X7: the routine sees the function through its values at the sampled
    points only: two functions that agree on the points a + i*h
    (i = 1 .. n-1), a and b give the same returned value and the same
    calls. *)
Theorem depends_on_samples_only
  {D : Type} {ops : DoubleOps D} (f g : D -> D) (a b : D) (n : Z) :
  CInt.INT_MIN <= n <= CInt.INT_MAX ->
  (forall x, In x (sample_points a b n) -> f x = g x) ->
  trapezoidal_rule f a b n = trapezoidal_rule g a b n.
Proof.
  intros Hn Hfg. destruct (Z.eq_dec n CInt.INT_MIN) as [-> | Hneq].
  - now rewrite !trapezoidal_rule_INT_MIN.
  - rewrite !trapezoidal_rule_run by lia. do 2 f_equal.
    assert (Hsum : interior_sum f a (step_width a b n) n
                   = interior_sum g a (step_width a b n) n).
    { unfold interior_sum. apply fold_left_ext_In. intros s i Hi. f_equal.
      apply Hfg. apply sample_points_In. right; right.
      exists i. split; [exact Hi | reflexivity]. }
    unfold spec_value, bracket. rewrite Hsum.
    rewrite (Hfg a) by (apply sample_points_In; left; reflexivity).
    rewrite (Hfg b) by (apply sample_points_In; right; left; reflexivity).
    reflexivity.
Qed.

Lemma depends_on_samples_only_witness :
  CInt.INT_MIN <= 2 <= CInt.INT_MAX /\
  (forall x, In x (sample_points 0%float 1%float 2) ->
             func3 x = (if x <=? 1 then func3 x else 0)%float) /\
  trapezoidal_rule func3 0%float 1%float 2
  = trapezoidal_rule (fun x => if x <=? 1 then func3 x else 0)%float 0%float 1%float 2.
Proof.
  assert (Hn : CInt.INT_MIN <= 2 <= CInt.INT_MAX)
    by (unfold CInt.INT_MIN, CInt.INT_MAX; lia).
  assert (Hfg : forall x, In x (sample_points 0%float 1%float 2) ->
                          func3 x = (if x <=? 1 then func3 x else 0)%float).
  { intros x Hx. vm_compute in Hx.
    destruct Hx as [<- | [<- | [<- | []]]]; reflexivity. }
  split; [exact Hn |]. split; [exact Hfg |].
  exact (depends_on_samples_only
           func3 (fun x => if x <=? 1 then func3 x else 0)%float
           0%float 1%float 2 Hn Hfg).
Defined.

(** ** In binary64 *)

Section Propagation.

(** A class of values that every operation of the routine hands on. *)
Variable bad : float -> Prop.
Hypothesis bad_add_l : forall x y, bad x -> bad (x + y)%float.
Hypothesis bad_add_r : forall x y, bad y -> bad (x + y)%float.
Hypothesis bad_mul_l : forall x y, bad x -> bad (x * y)%float.
Hypothesis bad_mul_r : forall x y, bad y -> bad (x * y)%float.
Hypothesis bad_div_l : forall x y, bad x -> bad (x / y)%float.

Lemma bad_fold_acc (g : Z -> float) (l : list Z) :
  forall acc, bad acc -> bad (fold_left (fun s i => s + g i)%float l acc).
Proof.
  induction l as [|i l IH]; intros acc Hacc; [exact Hacc |].
  cbn [fold_left]. apply IH, bad_add_l, Hacc.
Qed.

Lemma bad_fold_term (g : Z -> float) (l : list Z) (i : Z) :
  In i l -> bad (g i) ->
  forall acc, bad (fold_left (fun s j => s + g j)%float l acc).
Proof.
  induction l as [|j l IH]; intros Hi Hg acc; [destruct Hi |].
  cbn [fold_left]. destruct Hi as [-> | Hi].
  - apply bad_fold_acc, bad_add_r, Hg.
  - now apply IH.
Qed.

(** A bad sample makes the value of the routine bad. *)
Lemma bad_sample (f : float -> float) (a b : float) (n : Z) (x : float) :
  In x (sample_points a b n) -> bad (f x) -> bad (spec_value f a b n).
Proof.
  intros Hx Hbad. unfold spec_value, bracket.
  apply bad_div_l, bad_mul_l.
  apply sample_points_In in Hx. destruct Hx as [-> | [-> | [i [Hi ->]]]].
  - apply bad_add_l, bad_add_l, Hbad.
  - apply bad_add_r, Hbad.
  - apply bad_add_l, bad_add_r, bad_mul_r. unfold interior_sum.
    apply (bad_fold_term (fun j => f (point a (step_width a b n) j)) (interior n) i Hi Hbad).
Qed.

(** A bad step width makes the value of the routine bad. *)
Lemma bad_step (f : float -> float) (a b : float) (n : Z) :
  bad (step_width a b n) -> bad (spec_value f a b n).
Proof.
  intros Hbad. unfold spec_value. apply bad_div_l, bad_mul_r, Hbad.
Qed.

End Propagation.

Section Binary64Classes.

Lemma div_not_finite_l (x y : float) :
  is_finite x = false -> is_finite (x / y)%float = false.
Proof.
  rewrite !is_finite_Prim2SF, div_spec.
  destruct (Prim2SF x) as [sx | sx | | sx mx ex];
    destruct (Prim2SF y) as [sy | sy | | sy my ey]; simpl; congruence.
Qed.

Lemma add_nan_l (x y : float) : is_nan x = true -> is_nan (x + y)%float = true.
Proof.
  rewrite !is_nan_Prim2SF, add_spec.
  destruct (Prim2SF x) as [sx | sx | | sx mx ex]; simpl; congruence.
Qed.

Lemma add_nan_r (x y : float) : is_nan y = true -> is_nan (x + y)%float = true.
Proof.
  rewrite !is_nan_Prim2SF, add_spec.
  destruct (Prim2SF x) as [sx | sx | | sx mx ex];
    destruct (Prim2SF y) as [sy | sy | | sy my ey]; simpl; congruence.
Qed.

Lemma mul_nan_l (x y : float) : is_nan x = true -> is_nan (x * y)%float = true.
Proof.
  rewrite !is_nan_Prim2SF, mul_spec.
  destruct (Prim2SF x) as [sx | sx | | sx mx ex]; simpl; congruence.
Qed.

Lemma mul_nan_r (x y : float) : is_nan y = true -> is_nan (x * y)%float = true.
Proof.
  rewrite !is_nan_Prim2SF, mul_spec.
  destruct (Prim2SF x) as [sx | sx | | sx mx ex];
    destruct (Prim2SF y) as [sy | sy | | sy my ey]; simpl; congruence.
Qed.

Lemma div_nan_l (x y : float) : is_nan x = true -> is_nan (x / y)%float = true.
Proof.
  rewrite !is_nan_Prim2SF, div_spec.
  destruct (Prim2SF x) as [sx | sx | | sx mx ex]; simpl; congruence.
Qed.

End Binary64Classes.

(** X8: in binary64 a value of the function that is not finite at any one
    of the sampled points makes the value returned not finite, and a NaN
    there makes it NaN; nothing is detected or reported. *)
Theorem not_finite_sample_propagates (f : float -> float) (a b : float) (n : Z) (x : float) :
  CInt.INT_MIN < n <= CInt.INT_MAX ->
  In x (sample_points a b n) ->
  is_finite (f x) = false ->
  exists v : float,
    returned (trapezoidal_rule f a b n) = Some v
    /\ is_finite v = false
    /\ (is_nan (f x) = true -> is_nan v = true).
Proof.
  intros Hn Hx Hbad. eexists. split; [| split].
  - rewrite trapezoidal_rule_run by exact Hn. reflexivity.
  - apply (bad_sample (fun y => is_finite y = false)
             add_not_finite_l add_not_finite_r mul_not_finite_l
             (fun u w => mul_not_finite u w) div_not_finite_l f a b n x Hx Hbad).
  - intros Hnan.
    apply (bad_sample (fun y => is_nan y = true)
             add_nan_l add_nan_r mul_nan_l mul_nan_r div_nan_l f a b n x Hx Hnan).
Qed.

Lemma not_finite_sample_propagates_witness :
  CInt.INT_MIN < 4 <= CInt.INT_MAX /\
  In 0%float (sample_points (-1)%float 1%float 4) /\
  is_finite (func1 0%float) = false /\
  exists v : float,
    returned (trapezoidal_rule func1 (-1)%float 1%float 4) = Some v
    /\ is_finite v = false.
Proof.
  assert (Hn : CInt.INT_MIN < 4 <= CInt.INT_MAX)
    by (unfold CInt.INT_MIN, CInt.INT_MAX; lia).
  assert (Hx : In 0%float (sample_points (-1)%float 1%float 4))
    by (vm_compute; tauto).
  assert (Hbad : is_finite (func1 0%float) = false) by reflexivity.
  destruct (not_finite_sample_propagates func1 (-1)%float 1%float 4 0%float Hn Hx Hbad)
    as (v & Hv & Hfin & _).
  split; [exact Hn |]. split; [exact Hx |]. split; [exact Hbad |].
  exists v. split; [exact Hv | exact Hfin].
Defined.

(** X9: in binary64 a difference b - a that is not finite (finite bounds
    too far apart, or a bound that is infinite or NaN) makes the step width
    and the value returned not finite, whatever the function and n. *)
Theorem not_finite_width_propagates (f : float -> float) (a b : float) (n : Z) :
  CInt.INT_MIN < n <= CInt.INT_MAX ->
  is_finite (b - a)%float = false ->
  is_finite (step_width a b n) = false
  /\ exists v : float,
       returned (trapezoidal_rule f a b n) = Some v /\ is_finite v = false.
Proof.
  intros Hn Hw.
  assert (Hh : is_finite (step_width a b n) = false)
    by (unfold step_width; apply div_not_finite_l, Hw).
  split; [exact Hh |]. eexists. split.
  - rewrite trapezoidal_rule_run by exact Hn. reflexivity.
  - apply (bad_step (fun y => is_finite y = false)
             (fun u w => mul_not_finite u w) div_not_finite_l f a b n Hh).
Qed.

Lemma not_finite_width_propagates_witness :
  CInt.INT_MIN < 2 <= CInt.INT_MAX /\
  is_finite (-1e308)%float = true /\ is_finite 1e308%float = true /\
  is_finite (1e308 - -1e308)%float = false /\
  is_finite (step_width (-1e308)%float 1e308%float 2) = false /\
  exists v : float,
    returned (trapezoidal_rule (fun _ => 0%float) (-1e308)%float 1e308%float 2) = Some v
    /\ is_finite v = false.
Proof.
  assert (Hn : CInt.INT_MIN < 2 <= CInt.INT_MAX)
    by (unfold CInt.INT_MIN, CInt.INT_MAX; lia).
  assert (Hw : is_finite (1e308 - -1e308)%float = false) by reflexivity.
  split; [exact Hn |]. split; [reflexivity |]. split; [reflexivity |].
  split; [exact Hw |].
  exact (not_finite_width_propagates (fun _ => 0%float) (-1e308)%float 1e308%float 2 Hn Hw).
Defined.

Section Conversion.

Lemma iter_xO_value (p k : positive) :
  Zpos (Pos.iter xO p k) = Zpos p * 2 ^ Zpos k.
Proof.
  induction k as [|k IH] using Pos.peano_ind.
  - simpl. lia.
  - rewrite Pos.iter_succ, Pos2Z.inj_xO, IH, Pos2Z.inj_succ, Z.pow_succ_r by lia. lia.
Qed.

(** The binary64 number a positive integer of at most 32 bits converts to. *)
Lemma of_uint63_small (p : positive) :
  Zpos p <= 2 ^ 31 ->
  exists k : positive,
    Prim2SF (of_uint63 (Uint63.of_Z (Zpos p)))
    = S754_finite false (Pos.iter xO p k) (- Zpos k).
Proof.
  intros Hp. change (2 ^ 31) with 2147483648 in Hp.
  rewrite of_uint63_spec, Uint63.of_Z_spec.
  rewrite Z.mod_small by (change Uint63.wB with 9223372036854775808; lia).
  unfold binary_normalize, binary_round.
  assert (Hd : Zpos (digits2_pos p) <= 32).
  { apply digits2_pos_bound; [lia |]. change (2 ^ 32) with 4294967296. lia. }
  set (d := digits2_pos p) in *.
  replace (fexp prec emax (Zpos d + 0)) with (Zpos d - 53)
    by (unfold fexp, SpecFloat.emin, prec, emax; lia).
  unfold shl_align.
  destruct (Zpos d - 53 - 0) as [| q | k] eqn:Ek; try lia.
  exists k. replace (Zpos d - 53) with (- Zpos k) by lia.
  apply binary_round_aux_canonical.
  unfold bounded, canonical_mantissa.
  rewrite digits2_pos_iter_xO. fold d.
  apply andb_true_intro; split.
  - apply Z.eqb_eq. unfold fexp, SpecFloat.emin, prec, emax. lia.
  - apply Z.leb_le. unfold prec, emax. lia.
Qed.

Lemma SF2R_iter_xO (s : bool) (p k : positive) :
  SF2R (S754_finite s (Pos.iter xO p k) (- Zpos k))
  = ((if s then -1 else 1) * IZR (Zpos p))%R.
Proof.
  cbn [SF2R]. rewrite iter_xO_value, mult_IZR, pow2_neg_exp by lia.
  rewrite Z.opp_involutive.
  assert (0 < IZR (2 ^ Zpos k))%R by (apply IZR_lt, Z.pow_pos_nonneg; lia).
  field. lra.
Qed.

End Conversion.

(** X10: the implicit conversions of the routine's [int] operands (n in
    (b - a)/n, i in i*h, the literals 2) are exact: every [int] converts
    to the finite binary64 number of the same value, without rounding. *)
Theorem int_conversion_exact (n : Z) :
  CInt.INT_MIN <= n <= CInt.INT_MAX ->
  F2R (float_of_int n) = IZR n /\ is_finite (float_of_int n) = true.
Proof.
  unfold CInt.INT_MIN, CInt.INT_MAX. intros Hn.
  rewrite is_finite_Prim2SF. unfold F2R, float_of_int.
  destruct (Z.ltb_spec n 0) as [Hneg | Hpos].
  - destruct n as [| p | p]; try lia.
    change (- Zneg p) with (Zpos p). rewrite opp_spec.
    destruct (of_uint63_small p) as [k ->];
      [change (2 ^ 31) with 2147483648; lia |].
    cbn [SFopp negb]. rewrite SF2R_iter_xO. split; [| reflexivity].
    change (Zneg p) with (- Zpos p). rewrite opp_IZR. ring.
  - destruct n as [| p | p]; try lia.
    + split; reflexivity.
    + destruct (of_uint63_small p) as [k ->];
        [change (2 ^ 31) with 2147483648; lia |].
      rewrite SF2R_iter_xO. split; [ring | reflexivity].
Qed.

Lemma int_conversion_exact_witness :
  CInt.INT_MIN <= -7 <= CInt.INT_MAX /\
  F2R (float_of_int (-7)) = IZR (-7) /\ is_finite (float_of_int (-7)) = true.
Proof.
  split; [unfold CInt.INT_MIN, CInt.INT_MAX; lia |].
  apply (int_conversion_exact (-7)).
  unfold CInt.INT_MIN, CInt.INT_MAX; lia.
Defined.

(** ** The entry point *)

(** X11: the program as a whole: with a library exponential that is within
    2^-53 of the exponential at the arguments of the second check, [main]
    writes exactly "All Test Cleared!" and a newline and returns 0; in
    general it either is aborted by a failed assertion, having written
    nothing, or returns 0 after that one line. *)
Theorem main_outcome (exp_f : float -> float) :
  ((forall x, In x (sample_points 0%float 1%float 10) -> exp_accurate exp_f (- x)%float) ->
   Driver.main exp_f = Driver.Exited 0 Driver.message)
  /\ (test exp_f = false -> Driver.main exp_f = Driver.Aborted)
  /\ (test exp_f = true -> Driver.main exp_f = Driver.Exited 0 Driver.message).
Proof.
  assert (Hpass : test exp_f = true -> Driver.main exp_f = Driver.Exited 0 Driver.message).
  { intros Ht. unfold Driver.main, Driver.test_run. rewrite Ht. reflexivity. }
  split; [| split].
  - intros Hacc. apply Hpass.
    destruct test1_passes as [H1 _]. destruct (test2_passes exp_f Hacc) as [H2 _].
    destruct test3_passes as [H3 _].
    unfold test. now rewrite H1, H2, H3.
  - intros Ht. unfold Driver.main, Driver.test_run. now rewrite Ht.
  - exact Hpass.
Qed.

Lemma main_outcome_witness :
  (forall x, In x (sample_points 0%float 1%float 10) -> exp_accurate exp_model (- x)%float)
  /\ Driver.main exp_model = Driver.Exited 0 Driver.message.
Proof.
  split; [exact exp_model_accurate |].
  exact (proj1 (main_outcome exp_model) exp_model_accurate).
Defined.
